(** * beseech.js: a command-line prompt, embedded in Rocq

    The development follows [src/lib/beseech.js].  The module keeps a
    process-wide session ([started], [paused], the bound streams), reads
    lines through listeners registered on the input stream, and passes
    results along callbacks.  The embedding makes this explicit:

    - the session, the listeners registered on the input stream and the
      observable effects (writes, log lines, callback invocations) form a
      [state] record that every operation transforms;
    - a callback is a defunctionalised closure ([kline], [krec]); calling
      it is [invoke_line] / [invoke_rec];
    - the environment acts through [deliver]: the input stream emits a
      ['data'] chunk or an ['error'], or the process receives SIGINT, and
      the listeners registered at that moment run to completion.  Whether
      a paused stream still emits is the stream's business: [deliver] is
      the emission itself.

    What the model leaves out.  A JavaScript string is a [string], one
    [ascii] per UTF-16 code unit, so the text is in the range
    U+0000..U+00FF.  An object is a tree of own properties that inherits
    from [Object.prototype] and shares no sub-object with another.  The
    built-in prototypes are the runtime's own, as it starts with them;
    what they hold (the functions [toString], [constructor], ..., and the
    prototype itself behind [__proto__]) is the value [VNative], into
    which the model does not look: a read or a write inside such an
    object is the outcome [Native], and the session that comes to it is
    followed no further ([Unmodelled]).  The modules [colors], [winston]
    and [async] are not part of the repository: coloured text is kept as
    marked pieces, a log call is an effect, and the series iterator of
    [async] is [iterate]. *)

From Stdlib Require Import ZArith Ascii String DecimalString List Bool Lia.
From stdpp Require Import base option list strings gmap.
Import ListNotations.

Local Open Scope string_scope.
Local Open Scope Z_scope.
Set Warnings "-register-all".

(** ** JavaScript strings *)

Module JsString.

Definition LF : ascii := ascii_of_nat 10.
Definition CR : ascii := ascii_of_nat 13.
Definition EOT : ascii := ascii_of_nat 4.   (* '\u0004' *)
Definition ETX : ascii := ascii_of_nat 3.   (* '\u0003' *)
Definition NUL : ascii := ascii_of_nat 0.   (* '\0' *)

Definition chr (c : ascii) : string := String c "".
Definition nl : string := chr LF.

(** WhiteSpace and LineTerminator code units below U+0100, the set
    [String.prototype.trim] strips: TAB, LF, VT, FF, CR, SP, NBSP. *)
Definition is_space (c : ascii) : bool :=
  let n := nat_of_ascii c in
  ((9 <=? n)%nat && (n <=? 13)%nat) || (n =? 32)%nat || (n =? 160)%nat.

Definition is_empty (s : string) : bool :=
  match s with "" => true | _ => false end.

(** [s.replace(/\r/g, '')] *)
Fixpoint remove_cr (s : string) : string :=
  match s with
  | "" => ""
  | String c r => if Ascii.eqb c CR then remove_cr r else String c (remove_cr r)
  end.

(** [s.replace(/^\n+/, '')] *)
Fixpoint strip_leading_nl (s : string) : string :=
  match s with
  | String c r => if Ascii.eqb c LF then strip_leading_nl r else s
  | "" => ""
  end.

(** [s.indexOf('\n')]: the position of the first line feed, or [-1]. *)
Fixpoint indexOf_nl (s : string) : Z :=
  match s with
  | "" => -1
  | String c r =>
      if Ascii.eqb c LF then 0
      else let i := indexOf_nl r in if i <? 0 then -1 else i + 1
  end.

Fixpoint drop_chars (n : nat) (s : string) : string :=
  match n, s with
  | O, _ => s
  | S n', String _ r => drop_chars n' r
  | S _, "" => ""
  end.

Fixpoint take_chars (n : nat) (s : string) : string :=
  match n, s with
  | S n', String c r => String c (take_chars n' r)
  | _, _ => ""
  end.

Definition len (s : string) : Z := Z.of_nat (String.length s).

(** [s.substr(start)] and [s.substr(start, length)]: a negative [start]
    counts from the end, a non-positive [length] gives the empty
    string. *)
Definition substr_start (s : string) (start : Z) : nat :=
  Z.to_nat (if start <? 0 then Z.max (len s + start) 0 else Z.min start (len s)).

Definition substr_from (s : string) (start : Z) : string :=
  drop_chars (substr_start s start) s.

Definition substr (s : string) (start length : Z) : string :=
  take_chars (Z.to_nat length) (drop_chars (substr_start s start) s).

Fixpoint trim_start (s : string) : string :=
  match s with
  | String c r => if is_space c then trim_start r else s
  | "" => ""
  end.

Fixpoint trim_end (s : string) : string :=
  match s with
  | "" => ""
  | String c r =>
      let r' := trim_end r in
      if is_space c && is_empty r' then "" else String c r'
  end.

(** [s.trim()] *)
Definition trim (s : string) : string := trim_end (trim_start s).

(** [s.toLowerCase()] on code units below U+0100: A-Z, and the Latin-1
    capitals U+00C0..U+00DE except the multiplication sign U+00D7. *)
Definition lower_char (c : ascii) : ascii :=
  let n := nat_of_ascii c in
  if ((65 <=? n)%nat && (n <=? 90)%nat)
     || ((192 <=? n)%nat && (n <=? 222)%nat && negb (n =? 215)%nat)
  then ascii_of_nat (n + 32) else c.

Fixpoint toLowerCase (s : string) : string :=
  match s with
  | "" => ""
  | String c r => String (lower_char c) (toLowerCase r)
  end.

(** [s.split('.')]: never empty; the accumulator [cur] holds the segment
    being read. *)
Fixpoint split_dot_aux (cur : string) (s : string) : list string :=
  match s with
  | "" => [cur]
  | String c r =>
      if Ascii.eqb c "."%char then cur :: split_dot_aux "" r
      else split_dot_aux (cur ++ chr c) r
  end.

Definition split_dot (s : string) : list string := split_dot_aux "" s.

(** Truthiness of a string value: only the empty string is falsy. *)
Definition truthy (s : string) : bool := negb (is_empty s).

End JsString.
Import JsString.

(** ** Data model *)

(** A validator is a pattern matcher (an object with a [test] method, such
    as a RegExp) or a plain predicate; both answer on a string. *)
Inductive validator :=
| Pattern (test : string → bool)
| Predicate (f : string → bool).

(** Field descriptors.  An absent attribute is [None] ([help]: the empty
    list, [hidden]: [false]). *)
Module Field.
Record t := {
  name : option string;
  message : option string;
  default : option string;
  hidden : bool;
  validator : option validator;
  warning : option string;
  help : list string
}.
End Field.

(** What [get] and [getInput] accept: a bare string or a descriptor. *)
Inductive field :=
| FStr (s : string)
| FDesc (p : Field.t).

(** [get]'s first argument: one field, or an array of fields. *)
Inductive message :=
| Single (f : field)
| Several (fs : list field).

(** Values held by a target object.  Numbers are the integer-valued ones;
    an object is the list of its own properties, in insertion order;
    [VNative] is a function or an object of the runtime's own. *)
Inductive value :=
| VUndefined
| VNull
| VBool (b : bool)
| VNum (n : Z)
| VStr (s : string)
| VObj (props : list (string * value))
| VNative.

(** The result record of [get]: answers by field name, in insertion order. *)
Definition record := list (string * string).

(** An Error object carried by the stream's ['error'] event. *)
Definition error := string.

(** Text with the colours the [colors] module attaches ([.grey],
    [.yellow]); concatenation of coloured pieces is list append. *)
Inductive style := Plain | Grey | Yellow.
Definition styled := list (style * string).

Inductive level := Help | Input | Error.

(** Arguments handed to the caller's callback. *)
Inductive arg :=
| ANull
| AErr (e : error)
| AStr (s : string)
| ARecord (r : record)
| AValue (v : value).

(** Observable effects, in the order they happen. *)
Inductive effect :=
| StdoutWrite (t : styled)        (* stdout.write(t) *)
| StdoutFlush                     (* stdout.flush() *)
| StdinPause                      (* stdin.pause() *)
| StdinResume                     (* stdin.resume() *)
| StdinSetEncoding                (* stdin.setEncoding('utf8') *)
| SetRawMode (b : bool)           (* stdio.setRawMode(b) *)
| Log (l : level) (t : styled)    (* logger.help / input / error *)
| Call (args : list arg)          (* the caller's callback is invoked *)
| Exit (code : Z)                 (* process.exit(code) *)
| Throw                           (* an uncaught TypeError *)
| Unmodelled.                     (* the program works on a built-in object *)

Inductive stream := ProcessStdin | ProcessStdout | Custom (n : nat).

(** What an API function returns: [undefined], or the module itself for
    chaining. *)
Inductive ret := RUndefined | RBeseech.

(** Outcome handed to a callback: [callback(err)] or
    [callback(null, x)]. *)
Inductive reply (A : Type) :=
| Err (e : error)
| Ok (x : A).
Arguments Err {A} e.
Arguments Ok {A} x.

(** Callbacks [function (err, results)]: the caller's own, or the one
    [addProperties] passes to [get] (lines 209-237), which closes over the
    target object. *)
Inductive krec :=
| KUserRec
| KAdd (obj : value).

(** Callbacks [function (err, line)]: the caller's own; the one [getInput]
    passes to the reader (lines 161-187), closing over the field and
    [getInput]'s callback; the one [get] passes to [getInput] (lines
    116-124) together with the series iterator's [next], closing over the
    series it belongs to, the current field, the fields still to do, the
    results so far and [get]'s callback. *)
Inductive kline :=
| KUserLine
| KInput (p : field) (k : kline)
| KItem (series : nat) (target : field) (rest : list field) (res : record)
        (k : krec).

Inductive reader := Cooked | Hidden.

(** The ['data'] listener a reader registers: its local variables [value]
    and [buffer], and the callback it will call. *)
Record closure := {
  rd : reader;
  value_ : string;
  buffer_ : string;
  cb : kline
}.

Record state := {
  started : bool;
  paused : bool;
  stdin : option stream;
  stdout : option stream;
  sigint_handlers : nat;                    (* process.on('SIGINT', ...) *)
  properties : gmap string Field.t;         (* beseech.properties *)
  val : option string;                      (* the global [val] of line 260 *)
  raw_mode : bool;                          (* terminal mode *)
  data_listeners : list (nat * closure);    (* stdin 'data' listeners *)
  error_listeners : list (nat * kline);     (* stdin 'error' listeners *)
  next_id : nat;                            (* identity of the next closure *)
  finished : list nat;                      (* series that dropped their callback *)
  next_series : nat;                        (* identity of the next series *)
  halted : bool;                            (* gone, or followed no further *)
  trace : list effect
}.

(** The module as loaded: nothing started, no listener. *)
Definition initial (props : gmap string Field.t) : state :=
  {| started := false; paused := false; stdin := None; stdout := None;
     sigint_handlers := 0; properties := props; val := None;
     raw_mode := false; data_listeners := []; error_listeners := [];
     next_id := 0; finished := []; next_series := 0; halted := false;
     trace := [] |}.

Definition emit (e : effect) (s : state) : state :=
  {| started := started s; paused := paused s; stdin := stdin s;
     stdout := stdout s; sigint_handlers := sigint_handlers s;
     properties := properties s; val := val s; raw_mode := raw_mode s;
     data_listeners := data_listeners s;
     error_listeners := error_listeners s; next_id := next_id s;
     finished := finished s; next_series := next_series s;
     halted := halted s; trace := (trace s ++ [e])%list |}.

Definition set_paused (b : bool) (s : state) : state :=
  {| started := started s; paused := b; stdin := stdin s; stdout := stdout s;
     sigint_handlers := sigint_handlers s; properties := properties s;
     val := val s; raw_mode := raw_mode s;
     data_listeners := data_listeners s;
     error_listeners := error_listeners s; next_id := next_id s;
     finished := finished s; next_series := next_series s;
     halted := halted s; trace := trace s |}.

Definition set_val (v : string) (s : state) : state :=
  {| started := started s; paused := paused s; stdin := stdin s;
     stdout := stdout s; sigint_handlers := sigint_handlers s;
     properties := properties s; val := Some v; raw_mode := raw_mode s;
     data_listeners := data_listeners s;
     error_listeners := error_listeners s; next_id := next_id s;
     finished := finished s; next_series := next_series s;
     halted := halted s; trace := trace s |}.

Definition set_raw_mode (b : bool) (s : state) : state :=
  {| started := started s; paused := paused s; stdin := stdin s;
     stdout := stdout s; sigint_handlers := sigint_handlers s;
     properties := properties s; val := val s; raw_mode := b;
     data_listeners := data_listeners s;
     error_listeners := error_listeners s; next_id := next_id s;
     finished := finished s; next_series := next_series s;
     halted := halted s; trace := trace s |}.

Definition set_listeners (d : list (nat * closure)) (e : list (nat * kline))
    (s : state) : state :=
  {| started := started s; paused := paused s; stdin := stdin s;
     stdout := stdout s; sigint_handlers := sigint_handlers s;
     properties := properties s; val := val s; raw_mode := raw_mode s;
     data_listeners := d; error_listeners := e; next_id := next_id s;
     finished := finished s; next_series := next_series s;
     halted := halted s; trace := trace s |}.

Definition set_next_id (n : nat) (s : state) : state :=
  {| started := started s; paused := paused s; stdin := stdin s;
     stdout := stdout s; sigint_handlers := sigint_handlers s;
     properties := properties s; val := val s; raw_mode := raw_mode s;
     data_listeners := data_listeners s;
     error_listeners := error_listeners s; next_id := n;
     finished := finished s; next_series := next_series s;
     halted := halted s; trace := trace s |}.

Definition set_series (done : list nat) (n : nat) (s : state) : state :=
  {| started := started s; paused := paused s; stdin := stdin s;
     stdout := stdout s; sigint_handlers := sigint_handlers s;
     properties := properties s; val := val s; raw_mode := raw_mode s;
     data_listeners := data_listeners s;
     error_listeners := error_listeners s; next_id := next_id s;
     finished := done; next_series := n; halted := halted s;
     trace := trace s |}.

Definition halt (s : state) : state :=
  {| started := started s; paused := paused s; stdin := stdin s;
     stdout := stdout s; sigint_handlers := sigint_handlers s;
     properties := properties s; val := val s; raw_mode := raw_mode s;
     data_listeners := data_listeners s;
     error_listeners := error_listeners s; next_id := next_id s;
     finished := finished s; next_series := next_series s; halted := true;
     trace := trace s |}.

(** An uncaught exception ends the process, and so does [process.exit].
    A program that reads or writes inside a built-in object goes on, but
    not in this model. *)
Definition throw (s : state) : state := halt (emit Throw s).
Definition exit (code : Z) (s : state) : state := halt (emit (Exit code) s).
Definition unmodelled (s : state) : state := halt (emit Unmodelled s).

(** ** Session lifecycle (lines 52-95) *)

Definition start (inStream outStream : option stream) (s : state)
    : ret * state :=
  if started s then (RUndefined, s)
  else
    (RBeseech,
     {| started := true; paused := paused s;
        stdin := Some (default ProcessStdin inStream);
        stdout := Some (default ProcessStdout outStream);
        sigint_handlers := S (sigint_handlers s); properties := properties s;
        val := val s; raw_mode := raw_mode s;
        data_listeners := data_listeners s;
        error_listeners := error_listeners s; next_id := next_id s;
        finished := finished s; next_series := next_series s;
        halted := halted s; trace := trace s |}).

Definition pause (s : state) : ret * state :=
  if negb (started s) || paused s then (RUndefined, s)
  else (RBeseech, set_paused true (emit StdinPause s)).

Definition resume (s : state) : ret * state :=
  if negb (started s) || negb (paused s) then (RUndefined, s)
  else (RBeseech, set_paused false (emit StdinResume s)).

(** ** Line readers (lines 245-302) *)

Definition add_listeners (c : closure) (s : state) : state :=
  let id := next_id s in
  set_next_id (S id)
    (set_listeners (data_listeners s ++ [(id, c)])%list
                   (error_listeners s ++ [(id, cb c)])%list s).

(** [stdin.removeListener('data', data)] and
    [stdin.removeListener('error', callback)] for the closure [id]. *)
Definition remove_listeners (id : nat) (s : state) : state :=
  set_listeners
    (List.filter (λ e, negb (Nat.eqb (fst e) id)) (data_listeners s))
    (List.filter (λ e, negb (Nat.eqb (fst e) id)) (error_listeners s)) s.

Definition update_closure (id : nat) (c : closure) (s : state) : state :=
  set_listeners
    (map (λ e, if Nat.eqb (fst e) id then (id, c) else e) (data_listeners s))
    (error_listeners s) s.

(** [readLine]: with no stream bound, [stdin.setEncoding] is a TypeError. *)
Definition readLine (callback : kline) (s : state) : state :=
  let s := snd (resume s) in
  match stdin s with
  | None => throw s
  | Some _ =>
      add_listeners
        {| rd := Cooked; value_ := ""; buffer_ := ""; cb := callback |}
        (emit StdinSetEncoding s)
  end.

Definition readLineHidden (callback : kline) (s : state) : state :=
  let s := set_raw_mode true (emit (SetRawMode true) s) in
  let s := snd (resume s) in
  match stdin s with
  | None => throw s
  | Some _ =>
      add_listeners
        {| rd := Hidden; value_ := ""; buffer_ := ""; cb := callback |} s
  end.

(** Line 141: [prop.hidden ? beseech.readLineHidden : beseech.readLine]. *)
Definition read (hidden : bool) : kline → state → state :=
  if hidden then readLineHidden else readLine.

Definition reader_of (hidden : bool) : reader :=
  if hidden then Hidden else Cooked.

(** The chunk kinds the hidden reader's [switch] tells apart. *)
Definition is_terminator (c : string) : bool :=
  String.eqb c (chr LF) || String.eqb c (chr CR)
  || String.eqb c (chr CR ++ chr LF) || String.eqb c (chr EOT).

Definition is_interrupt (c : string) : bool :=
  String.eqb c (chr ETX) || String.eqb c (chr NUL).

(** ** Prompting (lines 138-190) *)

(** [a || b] on optional string attributes: the first that is present
    and not empty. *)
Definition or_else (a b : option string) : option string :=
  match a with
  | Some x => if truthy x then a else b
  | None => b
  end.

(** [prop.message || prop.name || prop], then [.grey]: a descriptor with
    neither attribute is not a string and has no [grey], which
    concatenates as "undefined". *)
Definition grey_name (prop : field) : styled :=
  match prop with
  | FStr s => [(Grey, s)]
  | FDesc p =>
      match or_else (Field.message p) (or_else (Field.name p) None) with
      | Some n => [(Grey, n)]
      | None => [(Plain, "undefined")]
      end
  end.

Definition prop_default (prop : field) : option string :=
  match prop with
  | FStr _ => None
  | FDesc p => or_else (Field.default p) None
  end.

Definition prop_hidden (prop : field) : bool :=
  match prop with FStr _ => false | FDesc p => Field.hidden p end.

Definition prop_validator (prop : field) : option validator :=
  match prop with FStr _ => None | FDesc p => Field.validator p end.

Definition prop_warning (prop : field) : option string :=
  match prop with
  | FStr _ => None
  | FDesc p => or_else (Field.warning p) None
  end.

Definition prop_help (prop : field) : list string :=
  match prop with FStr _ => [] | FDesc p => Field.help p end.

(** [raw.join('')] after the optional [splice] of the default. *)
Definition prompt_text (prop : field) : styled :=
  ([(Plain, "prompt"); (Plain, ": ")] ++ grey_name prop
   ++ match prop_default prop with
      | Some d => [(Plain, (" (" ++ d ++ ")")%string)]
      | None => []
      end
   ++ [(Grey, ": ")])%list.

Definition log_help (lines : list string) (s : state) : state :=
  fold_left (λ s line, emit (Log Help [(Plain, line)]) s) lines s.

(** [getInput] up to the point where it hands its callback to the reader;
    with no output stream bound, [stdout.write] is a TypeError. *)
Definition getInput (prop : field) (callback : kline) (s : state) : state :=
  let s := log_help (prop_help prop) s in
  match stdout s with
  | None => throw s
  | Some _ =>
      let s := emit (StdoutWrite (prompt_text prop)) s in
      read (prop_hidden prop) (KInput prop callback) s
  end.

(** Lines 166-168: an empty line takes the default, when there is one. *)
Definition effective (prop : field) (line : string) : string :=
  if is_empty line then
    match prop_default prop with Some d => d | None => line end
  else line.

(** Lines 171-173. *)
Definition run_validator (v : validator) (line : string) : bool :=
  match v with
  | Pattern test => test line
  | Predicate f => f line
  end.

Definition valid (prop : field) (line : string) : bool :=
  match prop_validator prop with
  | Some v => run_validator v line
  | None => true
  end.

(** Lines 176-179. *)
Definition log_invalid (prop : field) (s : state) : state :=
  let s := emit (Log Error ((Plain, "Invalid input for ") :: grey_name prop)) s in
  match prop_warning prop with
  | Some w => emit (Log Error [(Plain, w)]) s
  | None => s
  end.

(** ** Target objects (property reads and writes, lines 202, 217-234) *)

(** What a property read or write comes to: it completes, it throws a
    TypeError, or it takes place inside an object of the runtime's own. *)
Inductive outcome (A : Type) :=
| Done (x : A)
| TypeError
| Native.
Arguments Done {A} x.
Arguments TypeError {A}.
Arguments Native {A}.

#[global] Instance outcome_bind : MBind outcome :=
  λ A B f m,
    match m with
    | Done x => f x
    | TypeError => TypeError
    | Native => Native
    end.

Definition truthy_value (v : value) : bool :=
  match v with
  | VUndefined | VNull => false
  | VBool b => b
  | VNum n => negb (n =? 0)
  | VStr s => truthy s
  | VObj _ | VNative => true
  end.

Fixpoint assoc_get (key : string) (props : list (string * value)) : value :=
  match props with
  | [] => VUndefined
  | (k, v) :: rest => if String.eqb k key then v else assoc_get key rest
  end.

Fixpoint assoc_set (key : string) (v : value) (props : list (string * value))
    : list (string * value) :=
  match props with
  | [] => [(key, v)]
  | (k, w) :: rest =>
      if String.eqb k key then (k, v) :: rest
      else (k, w) :: assoc_set key v rest
  end.

(** [key] is an own property. *)
Definition has_own (key : string) (props : list (string * value)) : bool :=
  existsb (λ kv, String.eqb (fst kv) key) props.

(** The members every object inherits from [Object.prototype], and those
    a number finds on [Number.prototype]; a boolean finds on
    [Boolean.prototype] three of the first list.  Each of them holds a
    function, [__proto__] apart, an accessor that yields the prototype. *)
Definition object_members : list string :=
  ["constructor"; "toString"; "toLocaleString"; "valueOf"; "hasOwnProperty";
   "isPrototypeOf"; "propertyIsEnumerable"; "__defineGetter__";
   "__defineSetter__"; "__lookupGetter__"; "__lookupSetter__"; "__proto__"].

Definition number_members : list string :=
  (["toExponential"; "toFixed"; "toPrecision"] ++ object_members)%list.

Definition inherits (members : list string) (key : string) : bool :=
  existsb (String.eqb key) members.

(** The decimal spelling of an array index. *)
Definition index_key (i : nat) : string :=
  NilZero.string_of_uint (Nat.to_uint i).

(** Own properties of a primitive string: [length] and the indices. *)
Definition string_own (s key : string) : option value :=
  if String.eqb key "length" then Some (VNum (len s))
  else
    match List.find (λ i, String.eqb (index_key i) key)
                    (seq 0 (String.length s)) with
    | Some i =>
        match String.get i s with
        | Some c => Some (VStr (chr c))
        | None => None
        end
    | None => None
    end.

(** [o[key]]: the own property, else the inherited member, else
    [undefined].  Reading a property of [undefined] or [null] is a
    TypeError.  What a string inherits besides the members of
    [Object.prototype] depends on the runtime and on [colors], which
    extends [String.prototype]: the model does not tell. *)
Definition prop_get (o : value) (key : string) : outcome value :=
  match o with
  | VUndefined | VNull => TypeError
  | VObj props =>
      if has_own key props then Done (assoc_get key props)
      else if inherits object_members key then Done VNative
      else Done VUndefined
  | VBool _ =>
      Done (if inherits object_members key then VNative else VUndefined)
  | VNum _ =>
      Done (if inherits number_members key then VNative else VUndefined)
  | VStr s =>
      match string_own s key with
      | Some v => Done v
      | None => if inherits object_members key then Done VNative else Native
      end
  | VNative => Native
  end.

(** [o[key] = v].  On an object the assignment makes or updates an own
    property, except for the name [__proto__] when it is not an own
    property: the assignment then goes to the inherited setter, which
    ignores a primitive and otherwise changes the prototype.  On a
    primitive the assignment is silently dropped (the file is not in
    strict mode); on [undefined] or [null] it is a TypeError. *)
Definition prop_set (o : value) (key : string) (v : value) : outcome value :=
  match o with
  | VUndefined | VNull => TypeError
  | VObj props =>
      if String.eqb key "__proto__" && negb (has_own key props) then
        match v with
        | VUndefined | VBool _ | VNum _ | VStr _ => Done o
        | VNull | VObj _ | VNative => Native
        end
      else Done (VObj (assoc_set key v props))
  | VBool _ | VNum _ | VStr _ => Done o
  | VNative => Native
  end.

(** [putNested(obj, path, value)], returning the object as it is after the
    call.  The loop descends while more than one segment is left; with one
    segment (or none: [path.shift()] is then [undefined], which names the
    property "undefined") it assigns.  The final [prop_set] of the
    recursive case is the parent seeing the write made inside its child. *)
Fixpoint putNested (last : value) (path : list string) (v : value)
    : outcome value :=
  match path with
  | [] => prop_set last "undefined" v
  | [key] => prop_set last key v
  | key :: rest =>
      cur ← prop_get last key;
      last1 ← (if truthy_value cur then Done last
               else prop_set last key (VObj []));
      child ← prop_get last1 key;
      child' ← putNested child rest v;
      prop_set last1 key child'
  end.

(** [record[key]] *)
Fixpoint record_get (key : string) (res : record) : option string :=
  match res with
  | [] => None
  | (k, l) :: rest => if String.eqb k key then Some l else record_get key rest
  end.

Definition record_value (key : string) (res : record) : value :=
  match record_get key res with
  | Some line => VStr line
  | None => VUndefined
  end.

(** A name that spells an array index: the canonical decimal form of a
    number below 2^32 - 1. *)
Definition array_index (key : string) : option N :=
  match NilZero.uint_of_string key with
  | Some d =>
      let n := N.of_uint d in
      if String.eqb (NilZero.string_of_uint (N.to_uint n)) key
         && (n <? 4294967295)%N
      then Some n else None
  | None => None
  end.

Definition is_index (key : string) : bool :=
  match array_index key with Some _ => true | None => false end.

Fixpoint insert_index (n : N) (key : string) (l : list (N * string))
    : list (N * string) :=
  match l with
  | [] => [(n, key)]
  | (m, k) :: rest =>
      if (n <=? m)%N then (n, key) :: l else (m, k) :: insert_index n key rest
  end.

Definition sorted_indices (keys : list string) : list (N * string) :=
  fold_right
    (λ key acc,
       match array_index key with
       | Some n => insert_index n key acc
       | None => acc
       end) [] keys.

(** [Object.keys(results)]: the names that spell array indices, in
    ascending order, then the other names in insertion order. *)
Definition Object_keys (res : record) : list string :=
  (map snd (sorted_indices (map fst res))
   ++ List.filter (λ key, negb (is_index key)) (map fst res))%list.

(** Lines 232-234. *)
Fixpoint merge_keys (obj : value) (keys : list string) (results : record)
    : outcome value :=
  match keys with
  | [] => Done obj
  | key :: rest =>
      obj' ← putNested obj (split_dot key) (record_value key results);
      merge_keys obj' rest results
  end.

Definition merge (obj : value) (results : record) : outcome value :=
  merge_keys obj (Object_keys results) results.

(** ** Callbacks and the batch driver (lines 103-130, 161-187, 209-237) *)

Definition reply_args {A} (inj : A → arg) (r : reply A) : list arg :=
  match r with
  | Err e => [AErr e]
  | Ok x => [ANull; inj x]
  end.

(** [addProperties]' callback; the branch [!results] of line 213 cannot be
    taken, [get] always passes its record. *)
Definition invoke_rec (k : krec) (r : reply record) (s : state) : state :=
  match k with
  | KUserRec => emit (Call (reply_args ARecord r)) s
  | KAdd obj =>
      match r with
      | Err e => emit (Call [AErr e]) s
      | Ok results =>
          match merge obj results with
          | Done obj' => emit (Call [ANull; AValue obj']) s
          | TypeError => throw s
          | Native => unmodelled s
          end
      end
  end.

Fixpoint record_put (key line : string) (res : record) : record :=
  match res with
  | [] => [(key, line)]
  | (k, l) :: rest =>
      if String.eqb k key then (k, line) :: rest
      else (k, l) :: record_put key line rest
  end.

(** [result[name] = line] on the record of line 105, which has no own
    property [__proto__]: under that name the assignment goes to the
    inherited setter, which ignores a string. *)
Definition record_set (key line : string) (res : record) : record :=
  if String.eqb key "__proto__" then res else record_put key line res.

(** [target.name || target], used as a property name. *)
Definition field_key (target : field) : string :=
  match target with
  | FStr s => s
  | FDesc p =>
      match or_else (Field.name p) None with
      | Some n => n
      | None => "[object Object]"
      end
  end.

(** [async.forEachSeries], as [get] uses it.  The library is not part of
    the repository; the model follows its series iterator: [iterate] with
    no field left calls the final callback with the record, otherwise it
    starts [getInput] on the next field and hands it the callback of lines
    116-124; an error calls the final callback with the error, after which
    the series has replaced its callback by an empty function, so that a
    series in [finished] calls nobody any more. *)
Definition is_finished (series : nat) (s : state) : bool :=
  existsb (Nat.eqb series) (finished s).

Definition drop_callback (series : nat) (s : state) : state :=
  set_series (series :: finished s) (next_series s) s.

Definition iterate (series : nat) (vars : list field) (res : record)
    (callback : krec) (s : state) : state :=
  match vars with
  | [] =>
      if is_finished series s then s else invoke_rec callback (Ok res) s
  | v :: rest => getInput v (KItem series v rest res callback) s
  end.

Fixpoint invoke_line (k : kline) (r : reply string) (s : state) : state :=
  match k with
  | KUserLine => emit (Call (reply_args AStr r)) s
  | KInput prop callback =>
      match r with
      | Err e => invoke_line callback (Err e) s
      | Ok line =>
          let line := effective prop line in
          if valid prop line then
            invoke_line callback (Ok line) (emit (Log Input [(Yellow, line)]) s)
          else getInput prop callback (log_invalid prop s)
      end
  | KItem series target rest res callback =>
      match r with
      | Err e =>
          if is_finished series s then s
          else drop_callback series (invoke_rec callback (Err e) s)
      | Ok line =>
          iterate series rest (record_set (field_key target) line res)
                  callback s
      end
  end.

(** A descriptor with no attribute but, possibly, a name. *)
Definition bare (name : option string) : Field.t :=
  {| Field.name := name; Field.message := None; Field.default := None;
     Field.hidden := false; Field.validator := None; Field.warning := None;
     Field.help := [] |}.

(** What [beseech.properties], the plain object of line 38, inherits under
    a lower-case name: the function [Object] under [constructor], and
    [Object.prototype] under [__proto__].  [getInput] and [get] read of a
    field its seven attributes only: of [Object] they find the name
    "Object" and nothing else, of [Object.prototype] nothing at all. *)
Definition inherited_field (name : string) : option Field.t :=
  if String.eqb name "constructor" then Some (bare (Some "Object"))
  else if String.eqb name "__proto__" then Some (bare None)
  else None.

(** Lines 104-113: [vars.map(...)].  [props] holds the own properties of
    [beseech.properties]. *)
Definition known (props : gmap string Field.t) (v : field) : field :=
  match v with
  | FStr str =>
      let v := toLowerCase str in
      match props !! v with
      | Some d => FDesc d
      | None =>
          match inherited_field v with
          | Some d => FDesc d
          | None => FStr v
          end
      end
  | FDesc _ =>
      match props !! "[object Object]" with Some d => FDesc d | None => v end
  end.

Definition vars_of (msg : message) : list field :=
  match msg with Single f => [f] | Several fs => fs end.

(** [get]: [async.forEachSeries] over the fields, one [getInput] at a
    time; over no field at all it calls back at once. *)
Definition get (msg : message) (callback : krec) (s : state) : state :=
  let series := next_series s in
  iterate series (map (known (properties s)) (vars_of msg)) [] callback
    (set_series (finished s) (S series) s).

(** ** addProperties (lines 200-238) *)

(** [properties.filter(...)]: the names for which [typeof obj[prop]] is
    'undefined'. *)
Fixpoint filter_undefined (obj : value) (properties : list string)
    : outcome (list string) :=
  match properties with
  | [] => Done []
  | prop :: rest =>
      v ← prop_get obj prop;
      rest' ← filter_undefined obj rest;
      Done (match v with VUndefined => prop :: rest' | _ => rest' end)
  end.

Definition addProperties (obj : value) (properties : list string)
    (s : state) : state :=
  match filter_undefined obj properties with
  | TypeError => throw s
  | Native => unmodelled s
  | Done [] => emit (Call [AValue obj]) s
  | Done properties =>
      get (Several (map FStr properties)) (KAdd obj) s
  end.

(** ** The input stream's events *)

(** The cooked reader's ['data'] listener (lines 250-267). *)
Definition cooked_data (id : nat) (c : closure) (chunk : string)
    (s : state) : state :=
  let value := remove_cr (value_ c ++ buffer_ c ++ chunk) in
  if 0 <=? indexOf_nl value then
    let value :=
      if String.eqb value nl then value else strip_leading_nl value in
    let buffer := substr_from value (indexOf_nl value) in
    let s := set_val (substr value 0 (indexOf_nl value)) s in
    let s := snd (pause s) in
    let s := remove_listeners id s in
    (* [buffer] lives in this closure, which nothing refers to any more *)
    invoke_line (cb c) (Ok (trim value)) s
  else
    update_closure id
      {| rd := Cooked; value_ := value; buffer_ := ""; cb := cb c |} s.

(** The hidden reader's ['data'] listener (lines 280-301). *)
Definition hidden_data (id : nat) (c : closure) (chunk : string)
    (s : state) : state :=
  if is_terminator chunk then
    let s := set_raw_mode false (emit (SetRawMode false) s) in
    let s := remove_listeners id s in
    let value := trim (value_ c) in
    let s := emit (StdoutWrite [(Plain, nl)]) s in
    let s := emit StdoutFlush s in
    let s := snd (pause s) in
    invoke_line (cb c) (Ok value) s
  else if is_interrupt chunk then
    exit 1 (emit (StdoutWrite [(Plain, nl)]) s)
  else
    update_closure id
      {| rd := Hidden; value_ := value_ c ++ buffer_ c ++ chunk;
         buffer_ := ""; cb := cb c |} s.

Inductive event :=
| Data (chunk : string)
| StreamError (e : error)
| Sigint.

Fixpoint closure_of (id : nat) (l : list (nat * closure)) : option closure :=
  match l with
  | [] => None
  | (i, c) :: rest => if Nat.eqb i id then Some c else closure_of id rest
  end.

Definition run_data (chunk : string) (s : state) (id : nat) : state :=
  if halted s then s
  else
    match closure_of id (data_listeners s) with
    | None => s
    | Some c =>
        match rd c with
        | Cooked => cooked_data id c chunk s
        | Hidden => hidden_data id c chunk s
        end
    end.

Definition run_error (e : error) (s : state) (l : nat * kline) : state :=
  if halted s then s else invoke_line (snd l) (Err e) s.

(** One event of the environment.  The emitter calls the listeners that
    are registered when the event is emitted, in registration order; an
    ['error'] nobody listens to is thrown. *)
Definition deliver (ev : event) (s : state) : state :=
  if halted s then s
  else
    match ev with
    | Data chunk =>
        fold_left (run_data chunk) (map fst (data_listeners s)) s
    | StreamError e =>
        match error_listeners s with
        | [] => throw s
        | ls => fold_left (run_error e) ls s
        end
    | Sigint =>
        match sigint_handlers s with
        | O => halt s
        | S _ => exit 1 (emit (StdoutWrite [(Plain, nl)]) s)
        end
    end.

Definition feed (evs : list event) (s : state) : state :=
  fold_left (λ s ev, deliver ev s) evs s.

(** A started session with the default streams. *)
Definition session (props : gmap string Field.t) : state :=
  snd (start None None (initial props)).

(** ** Vocabulary of the statements *)

(** The callback invocations of a trace. *)
Fixpoint calls (t : list effect) : list (list arg) :=
  match t with
  | [] => []
  | Call args :: rest => args :: calls rest
  | _ :: rest => calls rest
  end.

Definition is_newline (t : styled) : bool :=
  match t with
  | [(Plain, x)] => String.eqb x nl
  | _ => false
  end.

(** What the user sees of a trace: prompts, log lines, callbacks and the
    end of the process; the stream controls (pause, resume, encoding, raw
    mode, flush) and the hidden reader's newline are left out. *)
Definition is_visible (e : effect) : bool :=
  match e with
  | StdoutWrite x => negb (is_newline x)
  | Log _ _ | Call _ | Exit _ | Throw | Unmodelled => true
  | _ => false
  end.

Definition visible (t : list effect) : list effect := List.filter is_visible t.

(** What [getInput] shows before it reads, and what it shows when the
    validator rejects a line. *)
Definition shown (prop : field) : list effect :=
  (map (λ line, Log Help [(Plain, line)]) (prop_help prop)
   ++ [StdoutWrite (prompt_text prop)])%list.

Definition rejected (prop : field) : list effect :=
  Log Error ((Plain, "Invalid input for ") :: grey_name prop)
  :: match prop_warning prop with
     | Some w => [Log Error [(Plain, w)]]
     | None => []
     end.

Definition accepted (line : string) : list effect :=
  [Log Input [(Yellow, line)]].

(** A started session with nothing pending on the input stream. *)
Record idle (s : state) : Prop := {
  idle_halted : halted s = false;
  idle_started : started s = true;
  idle_stdin : is_Some (stdin s);
  idle_stdout : is_Some (stdout s);
  idle_data : data_listeners s = [];
  idle_error : error_listeners s = [];
  idle_series : ∀ i, (next_series s ≤ i)%nat → is_finished i s = false
}.

(** A session in which exactly the read of closure [c] is pending. *)
Record listening (s : state) (id : nat) (c : closure) : Prop := {
  listening_halted : halted s = false;
  listening_started : started s = true;
  listening_paused : paused s = false;
  listening_stdin : is_Some (stdin s);
  listening_stdout : is_Some (stdout s);
  listening_data : data_listeners s = [(id, c)];
  listening_error : error_listeners s = [(id, cb c)];
  listening_series : ∀ i, (next_series s ≤ i)%nat → is_finished i s = false
}.

(** The session a pending read leaves behind at the moment it calls back:
    the cooked reader has set the global [val], paused the input and
    removed its listeners; the hidden reader has left raw mode, removed its
    listeners, written the newline, flushed and paused. *)
Definition cooked_close (id : nat) (v : string) (s : state) : state :=
  remove_listeners id (snd (pause (set_val v s))).

Definition hidden_close (id : nat) (s : state) : state :=
  snd (pause
         (emit StdoutFlush
            (emit (StdoutWrite [(Plain, nl)])
               (remove_listeners id
                  (set_raw_mode false (emit (SetRawMode false) s)))))).

(** What line 260 puts into [val]. *)
Definition cooked_val (v chunk : string) : string :=
  let v' := remove_cr (v ++ chunk) in
  let v' := if String.eqb v' nl then v' else strip_leading_nl v' in
  substr v' 0 (indexOf_nl v').

Definition close (hidden : bool) (id : nat) (v chunk : string) (s : state)
    : state :=
  if hidden then hidden_close id s
  else cooked_close id (cooked_val v chunk) s.

(** From [s] to [s'] the user has been shown [out], no series has
    dropped its callback and none has been started. *)
Record shows (s s' : state) (out : list effect) : Prop := {
  shows_visible : visible (trace s') = (visible (trace s) ++ out)%list;
  shows_finished : finished s' = finished s;
  shows_series : next_series s' = next_series s
}.

(** What one chunk does to a pending read whose [value] is [v] (with an
    empty [buffer]): the read goes on with a longer value, or it calls
    back with a line.  [hidden] selects the reader. *)
Definition absorbs (hidden : bool) (v chunk : string) : option string :=
  if hidden then
    if is_terminator chunk || is_interrupt chunk then None
    else Some (v ++ chunk)
  else
    let v' := remove_cr (v ++ chunk) in
    if 0 <=? indexOf_nl v' then None else Some v'.

Definition resolves (hidden : bool) (v chunk : string) : option string :=
  if hidden then
    if is_terminator chunk then Some (trim v) else None
  else
    let v' := remove_cr (v ++ chunk) in
    if 0 <=? indexOf_nl v' then
      Some (trim (if String.eqb v' nl then v' else strip_leading_nl v'))
    else None.

(** Chunks that leave the read pending, and the value they leave. *)
Fixpoint absorbed (hidden : bool) (v : string) (evs : list event)
    : option string :=
  match evs with
  | [] => Some v
  | Data chunk :: rest =>
      match absorbs hidden v chunk with
      | Some v' => absorbed hidden v' rest
      | None => None
      end
  | _ => None
  end.

(** Chunks of which the last one, and no earlier one, completes a line. *)
Fixpoint submitted (hidden : bool) (v : string) (evs : list event)
    : option string :=
  match evs with
  | [] => None
  | Data chunk :: rest =>
      match absorbs hidden v chunk with
      | Some v' => submitted hidden v' rest
      | None => match rest with [] => resolves hidden v chunk | _ => None end
      end
  | _ => None
  end.

(** The events of one field's dialogue that ends with an accepted line:
    any number of submissions the validator rejects, then one it accepts.
    [answers prop evs out line]: the dialogue shows [out] and yields
    [line]. *)
Inductive answers (prop : field)
    : list event → list effect → string → Prop :=
| answers_accept evs line :
    submitted (prop_hidden prop) "" evs = Some line →
    valid prop (effective prop line) = true →
    answers prop evs (shown prop ++ accepted (effective prop line))
            (effective prop line)
| answers_retry evs line evs' out r :
    submitted (prop_hidden prop) "" evs = Some line →
    valid prop (effective prop line) = false →
    answers prop evs' out r →
    answers prop (evs ++ evs') (shown prop ++ rejected prop ++ out) r.

(** The events of a dialogue that is still waiting for an acceptable
    line: rejected submissions, then chunks that complete no line and
    leave the read with the value [v]. *)
Inductive asking (prop : field)
    : list event → list effect → string → Prop :=
| asking_wait evs v :
    absorbed (prop_hidden prop) "" evs = Some v →
    asking prop evs (shown prop) v
| asking_retry evs line evs' out v :
    submitted (prop_hidden prop) "" evs = Some line →
    valid prop (effective prop line) = false →
    asking prop evs' out v →
    asking prop (evs ++ evs') (shown prop ++ rejected prop ++ out) v.

(** The events that take a read left pending with the value [v] to an
    accepted line: chunks that complete the line and, if the validator
    rejects it, a dialogue of the field from its start. *)
Inductive resumed (prop : field) (v : string)
    : list event → list effect → string → Prop :=
| resumed_accept evs line :
    submitted (prop_hidden prop) v evs = Some line →
    valid prop (effective prop line) = true →
    resumed prop v evs (accepted (effective prop line)) (effective prop line)
| resumed_retry evs line evs' out r :
    submitted (prop_hidden prop) v evs = Some line →
    valid prop (effective prop line) = false →
    answers prop evs' out r →
    resumed prop v (evs ++ evs') (rejected prop ++ out) r.

(** The batch driver in the words of the specification: the fields are
    asked one after the other; each accepted line is stored under its
    field's name; a stream error while a field is being asked ends the
    batch with that error.  [batch fs res evs out r]: starting from the
    record [res], the events [evs] take the fields [fs] through the
    dialogues [out] to the outcome [r]. *)
Inductive batch : list field → record → list event → list effect
                  → reply record → Prop :=
| batch_done res :
    batch [] res [] [] (Ok res)
| batch_next f fs res evs shown_f line evs' out r :
    answers f evs shown_f line →
    batch fs (record_set (field_key f) line res) evs' out r →
    batch (f :: fs) res (evs ++ evs') (shown_f ++ out) r
| batch_fail f fs res evs shown_f v e :
    asking f evs shown_f v →
    batch (f :: fs) res (evs ++ [StreamError e]) shown_f (Err e).

(** Reading a dotted path through the own properties of nested objects;
    [None] when the path leaves the objects. *)
Fixpoint lookup_path (obj : value) (path : list string) : option value :=
  match path with
  | [] => Some obj
  | key :: rest =>
      match obj with
      | VObj props => lookup_path (assoc_get key props) rest
      | _ => None
      end
  end.

(** Two paths part ways: they agree up to some segment and differ
    there. *)
Fixpoint diverge (p q : list string) : bool :=
  match p, q with
  | k :: p', k' :: q' => if String.eqb k k' then diverge p' q' else true
  | _, _ => false
  end.

(** [q] stops strictly before the end of [p]. *)
Fixpoint proper_prefix (q p : list string) : bool :=
  match q, p with
  | [], _ :: _ => true
  | k :: q', k' :: p' => String.eqb k k' && proper_prefix q' p'
  | _, _ => false
  end.

Definition object_at (obj : value) (path : list string) : bool :=
  match lookup_path obj path with
  | Some (VObj _) => true
  | _ => false
  end.

(** How a series ends: with the record, or with the error, after which
    it drops its callback. *)
Definition conclude (series : nat) (k : krec) (r : reply record)
    (s : state) : state :=
  match r with
  | Ok res => invoke_rec k (Ok res) s
  | Err e => drop_callback series (invoke_rec k (Err e) s)
  end.

(** ** Sample data *)

(** A field that is checked by [v], with a warning. *)
Definition yes_descriptor (v : validator) : Field.t :=
  {| Field.name := Some "ok"; Field.message := None;
     Field.default := None; Field.hidden := false;
     Field.validator := Some v;
     Field.warning := Some "say yes"; Field.help := [] |}.

(** A field with a default. *)
Definition port_field : field :=
  FDesc {| Field.name := Some "port"; Field.message := None;
           Field.default := Some "5432"; Field.hidden := false;
           Field.validator := None; Field.warning := None;
           Field.help := [] |}.

(** A field with a default, checked by a validator that takes no empty
    line. *)
Definition checked_port : field :=
  FDesc {| Field.name := Some "port"; Field.message := None;
           Field.default := Some "5432"; Field.hidden := false;
           Field.validator := Some (Predicate (λ line, negb (is_empty line)));
           Field.warning := None; Field.help := [] |}.

(** A registry that knows "host", under a name and a message of its
    own. *)
Definition host_descriptor : Field.t :=
  {| Field.name := Some "hostname"; Field.message := Some "Host name";
     Field.default := None; Field.hidden := false;
     Field.validator := None; Field.warning := None; Field.help := [] |}.

Definition registry : gmap string Field.t := {[ "host" := host_descriptor ]}.

(** ** Using the module *)

(** What can happen to the module: the environment emits an event, or the
    program calls one of the exported functions, with its own callback.
    Nothing happens any more once the process is gone. *)
Inductive action :=
| Emit (ev : event)
| Start (inStream outStream : option stream)
| Pause
| Resume
| Get (msg : message)
| GetInput (prop : field)
| AddProperties (obj : value) (props : list string)
| ReadLine
| ReadLineHidden.

Definition perform (a : action) (s : state) : state :=
  if halted s then s
  else
    match a with
    | Emit ev => deliver ev s
    | Start i o => snd (start i o s)
    | Pause => snd (pause s)
    | Resume => snd (resume s)
    | Get msg => get msg KUserRec s
    | GetInput prop => getInput prop KUserLine s
    | AddProperties obj props => addProperties obj props s
    | ReadLine => readLine KUserLine s
    | ReadLineHidden => readLineHidden KUserLine s
    end.

Definition run (acts : list action) (s : state) : state :=
  fold_left (λ s a, perform a s) acts s.

(** The calls made on the input stream's flow, read off a trace: [Some b]
    when [stdin.pause()] and [stdin.resume()] alternate, starting with a
    pause, [b] telling whether a pause came last; [None] when one of them
    is called twice in a row. *)
Definition is_flow (e : effect) : bool :=
  match e with
  | StdinPause | StdinResume => true
  | _ => false
  end.

Definition flow_step (st : option bool) (e : effect) : option bool :=
  match e with
  | StdinPause =>
      match st with Some false => Some true | _ => None end
  | StdinResume =>
      match st with Some true => Some false | _ => None end
  | _ => st
  end.

Definition flow (t : list effect) : option bool :=
  fold_left flow_step t (Some false).

(** The ['error'] listeners that go with a list of ['data'] listeners:
    same closure identity, the closure's callback. *)
Definition error_side (l : list (nat * closure)) : list (nat * kline) :=
  map (λ e, (fst e, cb (snd e))) l.

(** The listeners of a session are in order: every read has its two
    listeners, and closure identities are not reused. *)
Record paired (s : state) : Prop := {
  paired_error : error_listeners s = error_side (data_listeners s);
  paired_nodup : NoDup (map fst (data_listeners s));
  paired_fresh : Forall (λ e, (fst e < next_id s)%nat) (data_listeners s)
}.

(** [s] contains a carriage return. *)
Fixpoint has_cr (s : string) : bool :=
  match s with
  | "" => false
  | String c r => Ascii.eqb c CR || has_cr r
  end.

(** All the chunks of a list, one after the other. *)
Fixpoint joined (chunks : list string) : string :=
  match chunks with
  | [] => ""
  | c :: rest => c ++ joined rest
  end.

(** [putNested] can follow [path] down the own properties of [obj] and
    assign at its end: every segment before the last names an own
    property that holds an object, or one that is falsy and will be
    replaced, or nothing at all, own or inherited; the last segment is
    not the inherited [__proto__]. *)
Fixpoint writable (obj : value) (path : list string) : bool :=
  match path with
  | [] => false
  | [key] =>
      match obj with
      | VObj props => has_own key props || negb (String.eqb key "__proto__")
      | _ => false
      end
  | key :: rest =>
      match obj with
      | VObj props =>
          if has_own key props then
            if truthy_value (assoc_get key props)
            then writable (assoc_get key props) rest
            else writable (VObj []) rest
          else negb (inherits object_members key) && writable (VObj []) rest
      | _ => false
      end
  end.

(** A boolean or a number: a primitive without own properties. *)
Definition is_plain (v : value) : bool :=
  match v with
  | VBool _ | VNum _ => true
  | _ => false
  end.

(** A name without a dot. *)
Fixpoint dotless (s : string) : bool :=
  match s with
  | "" => true
  | String c r => negb (Ascii.eqb c ".") && dotless r
  end.

(** ** Properties *)

(** *** The operations on small inputs *)

(** One line, with a carriage return, read by the cooked reader. *)
Example cooked_one_line :
  trace (feed [Data ("ab" ++ chr CR ++ nl)] (readLine KUserLine (session ∅)))
  = [StdinSetEncoding; StdinPause; Call [ANull; AStr "ab"]].
Proof. vm_compute. reflexivity. Qed.

Example trim_example : trim (" a b" ++ nl) = "a b".
Proof. reflexivity. Qed.

Example split_example : split_dot "db.host" = ["db"; "host"].
Proof. reflexivity. Qed.

(** The specification's batch: two fields, two lines. *)
Example batch_example :
  trace (feed [Data ("localhost" ++ nl); Data ("5432" ++ nl)]
           (get (Several [FStr "Host"; FStr "port"]) KUserRec (session ∅)))
  = [StdoutWrite [(Plain, "prompt"); (Plain, ": "); (Grey, "host"); (Grey, ": ")];
     StdinSetEncoding; StdinPause; Log Input [(Yellow, "localhost")];
     StdoutWrite [(Plain, "prompt"); (Plain, ": "); (Grey, "port"); (Grey, ": ")];
     StdinResume; StdinSetEncoding; StdinPause; Log Input [(Yellow, "5432")];
     Call [ANull; ARecord [("host", "localhost"); ("port", "5432")]]].
Proof. vm_compute. reflexivity. Qed.

(** A stream error while the second field is asked ends the batch. *)
Example batch_error :
  visible (trace (feed [Data ("localhost" ++ nl); StreamError "EIO"]
                    (get (Several [FStr "host"; FStr "port"]) KUserRec
                       (session ∅))))
  = (shown (FStr "host") ++ accepted "localhost" ++ shown (FStr "port")
     ++ [Call [AErr "EIO"]])%list.
Proof. vm_compute. reflexivity. Qed.

(** A pasted chunk goes into a hidden value whole, terminator included. *)
Example hidden_paste :
  data_listeners (feed [Data ("pw" ++ nl)]
                    (readLineHidden KUserLine (session ∅)))
  = [(0%nat, {| rd := Hidden; value_ := "pw" ++ nl; buffer_ := "";
               cb := KUserLine |})].
Proof. vm_compute. reflexivity. Qed.

(** An interrupt character typed into a hidden read ends the process. *)
Example hidden_interrupt :
  let s := feed [Data "p"; Data (chr ETX); Data "w"]
             (readLineHidden KUserLine (session ∅)) in
  trace s = [SetRawMode true; StdoutWrite [(Plain, nl)]; Exit 1]
  ∧ halted s = true.
Proof. vm_compute. split; reflexivity. Qed.

(** The specification's target for the result assembler. *)
Example nested_example :
  merge (VObj []) [("db.host", "localhost")]
  = Done (VObj [("db", VObj [("host", VStr "localhost")])]).
Proof. reflexivity. Qed.

(** Names that spell array indices are merged first. *)
Example index_names_first :
  Object_keys [("7.x", "a"); ("b", "c"); ("10", "d"); ("7", "")]
  = ["7"; "10"; "7.x"; "b"]
  ∧ merge (VObj []) [("7.x", "a"); ("7", "")]
    = Done (VObj [("7", VObj [("x", VStr "a")])]).
Proof. split; reflexivity. Qed.

(** A path through a name the target inherits leaves the target: the
    write lands in [Object.prototype], or on the function [Number]. *)
Example inherited_names :
  merge (VObj []) [("__proto__.polluted", "x")] = Native
  ∧ merge (VObj [("port", VNum 5432)]) [("port.constructor.x", "y")]
    = Native
  ∧ merge (VObj []) [("__proto__", "x")] = Done (VObj [])
  ∧ filter_undefined (VObj []) ["toString"; "host"] = Done ["host"].
Proof. repeat split. Qed.

(** *** Traces *)

Lemma visible_app t u : visible (t ++ u) = (visible t ++ visible u)%list.
Proof. apply List.filter_app. Qed.

Lemma calls_app t u : calls (t ++ u) = (calls t ++ calls u)%list.
Proof.
  induction t as [|e t IH]; [reflexivity|].
  destruct e; simpl; rewrite ?IH; reflexivity.
Qed.

Lemma calls_visible t : calls (visible t) = calls t.
Proof.
  induction t as [|e t IH]; [reflexivity|].
  destruct e as [x| | | | | | | | | |]; simpl; rewrite ?IH; try reflexivity.
  destruct (is_newline x); simpl; now rewrite IH.
Qed.

Lemma calls_shown prop : calls (shown prop) = [].
Proof.
  unfold shown. rewrite calls_app. simpl. rewrite app_nil_r.
  induction (prop_help prop) as [|l ls IH]; simpl; auto.
Qed.

Lemma calls_rejected prop : calls (rejected prop) = [].
Proof. unfold rejected. destruct (prop_warning prop); reflexivity. Qed.

Lemma shows_same s s' :
  trace s' = trace s → finished s' = finished s →
  next_series s' = next_series s → shows s s' [].
Proof.
  intros T F N. constructor; [|exact F|exact N]. now rewrite T, app_nil_r.
Qed.

Lemma shows_trans s s1 s2 o1 o2 :
  shows s s1 o1 → shows s1 s2 o2 → shows s s2 (o1 ++ o2).
Proof.
  intros [V1 F1 N1] [V2 F2 N2]. constructor.
  - now rewrite V2, V1, app_assoc.
  - now rewrite F2.
  - now rewrite N2.
Qed.

Lemma shows_calls s s' out :
  shows s s' out → calls (trace s') = (calls (trace s) ++ calls out)%list.
Proof.
  intros [V _ _].
  now rewrite <- calls_visible, V, calls_app, calls_visible.
Qed.

Lemma shows_log_help ls s :
  shows s (log_help ls s) (map (λ line, Log Help [(Plain, line)]) ls).
Proof.
  revert s. induction ls as [|l ls IH]; intros s.
  - now apply shows_same.
  - apply (shows_trans s (emit (Log Help [(Plain, l)]) s) _ [_]);
      [|apply IH].
    constructor; try reflexivity. simpl. now rewrite visible_app.
Qed.

Lemma shows_log_invalid prop s :
  shows s (log_invalid prop s) (rejected prop).
Proof.
  unfold log_invalid, rejected.
  destruct (prop_warning prop); constructor; try reflexivity; simpl;
    rewrite !visible_app; simpl; now rewrite <- ?app_assoc.
Qed.

(** *** Sessions at rest and pending reads *)

Ltac by_computation := constructor; simpl; eauto.

Lemma idle_emit e s : idle s → idle (emit e s).
Proof. intros [? ? ? ? ? ? ?]. constructor; assumption. Qed.

Lemma idle_log_help ls s : idle s → idle (log_help ls s).
Proof.
  revert s. induction ls as [|l ls IH]; intros s H; [exact H|].
  apply (IH (emit _ s)). now apply idle_emit.
Qed.

Lemma idle_log_invalid prop s : idle s → idle (log_invalid prop s).
Proof.
  intros H. unfold log_invalid.
  destruct (prop_warning prop); repeat apply idle_emit; exact H.
Qed.

Lemma listening_emit e s id c : listening s id c → listening (emit e s) id c.
Proof. intros [? ? ? ? ? ? ? ?]. constructor; assumption. Qed.

Create HintDb session.
#[local] Hint Resolve idle_emit idle_log_help idle_log_invalid listening_emit
  : session.

(** Starting a read on a session at rest leaves exactly that read
    pending, and shows nothing. *)
Lemma read_listening hidden k s :
  idle s →
  listening (read hidden k s) (next_id s)
    {| rd := reader_of hidden; value_ := ""; buffer_ := ""; cb := k |}
  ∧ shows s (read hidden k s) [].
Proof.
  intros [Hh Hs [i Hi] [o Ho] Hd He Hf].
  destruct hidden; unfold read, readLine, readLineHidden, resume; simpl;
    rewrite Hs; simpl; destruct (paused s) eqn:Hp; simpl; rewrite Hi;
    (split; [constructor; simpl; rewrite ?Hd, ?He; eauto|]);
    (constructor; [|reflexivity|reflexivity]);
    simpl; repeat rewrite visible_app; simpl; rewrite ?app_nil_r;
    reflexivity.
Qed.

Lemma deliver_data_listening s id c chunk :
  listening s id c →
  deliver (Data chunk) s
  = match rd c with
    | Cooked => cooked_data id c chunk s
    | Hidden => hidden_data id c chunk s
    end.
Proof.
  intros [Hh _ _ _ _ Hd _ _]. unfold deliver. rewrite Hh, Hd. simpl.
  unfold run_data. rewrite Hh, Hd. simpl. now rewrite Nat.eqb_refl.
Qed.

Lemma feed_app evs evs' s : feed (evs ++ evs') s = feed evs' (feed evs s).
Proof. apply fold_left_app. Qed.

Lemma cooked_close_idle id c v s :
  listening s id c →
  idle (cooked_close id v s)
  ∧ trace (cooked_close id v s) = (trace s ++ [StdinPause])%list
  ∧ paused (cooked_close id v s) = true
  ∧ shows s (cooked_close id v s) [].
Proof.
  intros [Hh Hs Hp Hi Ho Hd He Hf].
  unfold cooked_close, pause. simpl. rewrite Hs, Hp. simpl.
  split; [|split; [reflexivity|split; [reflexivity|]]].
  - constructor; simpl; try assumption;
      rewrite ?Hd, ?He; simpl; now rewrite Nat.eqb_refl.
  - constructor; try reflexivity. simpl. rewrite visible_app. reflexivity.
Qed.

Lemma hidden_close_idle id c s :
  listening s id c →
  idle (hidden_close id s)
  ∧ trace (hidden_close id s)
    = (trace s ++ [SetRawMode false; StdoutWrite [(Plain, nl)];
                   StdoutFlush; StdinPause])%list
  ∧ paused (hidden_close id s) = true
  ∧ raw_mode (hidden_close id s) = false
  ∧ shows s (hidden_close id s) [].
Proof.
  intros [Hh Hs Hp Hi Ho Hd He Hf].
  unfold hidden_close, pause. simpl. rewrite Hs, Hp. simpl.
  split; [|split; [|split; [reflexivity|split; [reflexivity|]]]].
  - constructor; simpl; try assumption;
      rewrite ?Hd, ?He; simpl; now rewrite Nat.eqb_refl.
  - now rewrite <- !app_assoc.
  - constructor; try reflexivity. simpl. rewrite !visible_app. simpl.
    now rewrite !app_nil_r.
Qed.

(** *** A pending read *)

Section PendingRead.

Variables (hidden : bool) (k : kline) (id : nat).

(** The closure of the read, with the value it has accumulated. *)
Let pending (v : string) : closure :=
  {| rd := reader_of hidden; value_ := v; buffer_ := ""; cb := k |}.

(** A chunk that completes no line only lengthens the pending value. *)
Lemma deliver_absorbs v chunk v' s :
  listening s id (pending v) →
  absorbs hidden v chunk = Some v' →
  listening (deliver (Data chunk) s) id (pending v')
  ∧ trace (deliver (Data chunk) s) = trace s
  ∧ shows s (deliver (Data chunk) s) [].
Proof.
  intros L A. rewrite (deliver_data_listening _ _ _ _ L).
  destruct L as [Hh Hs Hp Hi Ho Hd He Hf].
  unfold absorbs in A. unfold pending in *.
  destruct hidden; simpl in *.
  - unfold hidden_data.
    destruct (is_terminator chunk); [discriminate|].
    destruct (is_interrupt chunk); [discriminate|].
    simpl in A. injection A as <-.
    split; [|split; [reflexivity|now apply shows_same]].
    constructor; simpl; try assumption.
    rewrite Hd. simpl. now rewrite Nat.eqb_refl.
  - unfold cooked_data. simpl. change ("" +:+ chunk) with chunk.
    destruct (0 <=? indexOf_nl (remove_cr (v ++ chunk))); [discriminate|].
    injection A as <-.
    split; [|split; [reflexivity|now apply shows_same]].
    constructor; simpl; try assumption.
    rewrite Hd. simpl. now rewrite Nat.eqb_refl.
Qed.


(** A chunk that completes a line makes the reader call back with it. *)
Lemma deliver_fires v chunk line s :
  halted s = false →
  data_listeners s = [(id, pending v)] →
  resolves hidden v chunk = Some line →
  deliver (Data chunk) s
  = invoke_line k (Ok line) (close hidden id v chunk s).
Proof.
  intros Hh Hd R. unfold deliver. rewrite Hh, Hd. simpl.
  unfold run_data. rewrite Hh, Hd. simpl. rewrite Nat.eqb_refl.
  unfold resolves in R. unfold pending. destruct hidden; simpl in *.
  - unfold hidden_data. destruct (is_terminator chunk); [|discriminate].
    now injection R as <-.
  - unfold cooked_data. simpl. change ("" +:+ chunk) with chunk.
    destruct (0 <=? indexOf_nl (remove_cr (v ++ chunk))); [|discriminate].
    now injection R as <-.
Qed.

Lemma deliver_resolves v chunk line s :
  listening s id (pending v) →
  resolves hidden v chunk = Some line →
  ∃ s', deliver (Data chunk) s = invoke_line k (Ok line) s'
        ∧ idle s' ∧ shows s s' [].
Proof.
  intros L R. exists (close hidden id v chunk s).
  split; [apply deliver_fires; [apply L|apply L|exact R]|].
  unfold close. destruct hidden.
  - destruct (hidden_close_idle _ _ _ L) as (I & _ & _ & _ & S).
    now split.
  - destruct (cooked_close_idle id _ (cooked_val v chunk) s L)
      as (I & _ & _ & S).
    now split.
Qed.

Lemma feed_absorbed evs : ∀ v v' s,
  listening s id (pending v) →
  absorbed hidden v evs = Some v' →
  listening (feed evs s) id (pending v')
  ∧ trace (feed evs s) = trace s
  ∧ shows s (feed evs s) [].
Proof.
  induction evs as [|ev evs IH]; intros v v' s L A; simpl in A.
  - injection A as <-. split; [exact L|]. split; [reflexivity|].
    now apply shows_same.
  - destruct ev as [chunk| |]; try discriminate.
    destruct (absorbs hidden v chunk) as [v1|] eqn:E; [|discriminate].
    destruct (deliver_absorbs _ _ _ _ L E) as (L1 & T1 & S1).
    destruct (IH _ _ _ L1 A) as (L2 & T2 & S2).
    change (feed (Data chunk :: evs) s)
      with (feed evs (deliver (Data chunk) s)).
    split; [exact L2|]. split; [now rewrite T2|].
    exact (shows_trans _ _ _ _ _ S1 S2).
Qed.

Lemma feed_submitted line evs : ∀ v s,
  listening s id (pending v) →
  submitted hidden v evs = Some line →
  ∃ s', feed evs s = invoke_line k (Ok line) s' ∧ idle s' ∧ shows s s' [].
Proof.
  induction evs as [|ev evs IH]; intros v s L S; simpl in S; [discriminate|].
  destruct ev as [chunk| |]; try discriminate.
  destruct (absorbs hidden v chunk) as [v1|] eqn:E.
  - destruct (deliver_absorbs _ _ _ _ L E) as (L1 & _ & S1).
    destruct (IH _ _ L1 S) as (s' & F & I & S2).
    exists s'. split; [exact F|]. split; [exact I|].
    exact (shows_trans _ _ _ _ _ S1 S2).
  - destruct evs; [|discriminate].
    exact (deliver_resolves _ _ _ _ L S).
Qed.

End PendingRead.

(** *** One field *)

Lemma next_id_log_help ls s : next_id (log_help ls s) = next_id s.
Proof.
  revert s. induction ls as [|l ls IH]; intros s; [reflexivity|].
  unfold log_help in *. simpl. now rewrite IH.
Qed.

(** [getInput] on a session at rest shows the help lines and the prompt
    and leaves the field's read pending. *)
Lemma getInput_listening prop k s :
  idle s →
  listening (getInput prop k s) (next_id s)
    {| rd := reader_of (prop_hidden prop); value_ := ""; buffer_ := "";
       cb := KInput prop k |}
  ∧ shows s (getInput prop k s) (shown prop).
Proof.
  intros I. unfold getInput.
  pose proof (idle_log_help (prop_help prop) s I) as I1.
  destruct (idle_stdout _ I1) as [o Ho]. rewrite Ho.
  pose proof (idle_emit (StdoutWrite (prompt_text prop)) _ I1) as I2.
  destruct (read_listening (prop_hidden prop) (KInput prop k) _ I2)
    as [L S].
  simpl in L. rewrite next_id_log_help in L. split; [exact L|].
  rewrite <- (app_nil_r (shown prop)).
  refine (shows_trans _ _ _ _ _ _ S). unfold shown.
  refine (shows_trans _ _ _ _ _ (shows_log_help _ s) _).
  constructor; try reflexivity. simpl. now rewrite visible_app.
Qed.

Lemma getInput_answers prop evs out line :
  answers prop evs out line →
  ∀ k s, idle s →
  ∃ s', feed evs (getInput prop k s) = invoke_line k (Ok line) s'
        ∧ idle s' ∧ shows s s' out.
Proof.
  induction 1 as [evs line S V|evs line evs' out r S V A IH]; intros k s I.
  - destruct (getInput_listening prop k s I) as [L T].
    destruct (feed_submitted _ _ _ _ _ _ _ L S) as (s1 & F & I1 & T1).
    exists (emit (Log Input [(Yellow, effective prop line)]) s1).
    split; [|split].
    + rewrite F. simpl. now rewrite V.
    + auto with session.
    + apply (shows_trans _ _ _ (shown prop) _ T).
      apply (shows_trans _ s1 _ [] _ T1).
      constructor; try reflexivity. simpl. now rewrite visible_app.
  - destruct (getInput_listening prop k s I) as [L T].
    destruct (feed_submitted _ _ _ _ _ _ _ L S) as (s1 & F & I1 & T1).
    destruct (IH k (log_invalid prop s1) (idle_log_invalid _ _ I1))
      as (s2 & F2 & I2 & T2).
    exists s2. split; [|split; [exact I2|]].
    + rewrite feed_app, F. simpl. rewrite V. exact F2.
    + apply (shows_trans _ _ _ (shown prop) _ T).
      apply (shows_trans _ s1 _ [] _ T1).
      exact (shows_trans _ _ _ _ _ (shows_log_invalid prop s1) T2).
Qed.

Lemma getInput_asking prop evs out v :
  asking prop evs out v →
  ∀ k s, idle s →
  ∃ id,
    listening (feed evs (getInput prop k s)) id
      {| rd := reader_of (prop_hidden prop); value_ := v; buffer_ := "";
         cb := KInput prop k |}
    ∧ shows s (feed evs (getInput prop k s)) out.
Proof.
  induction 1 as [evs v A|evs line evs' out v S V A IH]; intros k s I.
  - destruct (getInput_listening prop k s I) as [L T].
    destruct (feed_absorbed _ _ _ _ _ _ _ L A) as (L1 & _ & T1).
    exists (next_id s). split; [exact L1|].
    rewrite <- (app_nil_r (shown prop)).
    exact (shows_trans _ _ _ _ _ T T1).
  - destruct (getInput_listening prop k s I) as [L T].
    destruct (feed_submitted _ _ _ _ _ _ _ L S) as (s1 & F & I1 & T1).
    destruct (IH k (log_invalid prop s1) (idle_log_invalid _ _ I1))
      as (id & L2 & T2).
    exists id. rewrite feed_app, F. simpl. rewrite V.
    split; [exact L2|].
    apply (shows_trans _ _ _ (shown prop) _ T).
    apply (shows_trans _ s1 _ [] _ T1).
    exact (shows_trans _ _ _ _ _ (shows_log_invalid prop s1) T2).
Qed.

Lemma answers_valid prop evs out line :
  answers prop evs out line → valid prop line = true.
Proof. induction 1; assumption. Qed.

Lemma calls_answers prop evs out line :
  answers prop evs out line → calls out = [].
Proof.
  induction 1 as [evs line S V|evs line evs' out r S V A IH].
  - now rewrite calls_app, calls_shown.
  - now rewrite !calls_app, calls_shown, calls_rejected, IH.
Qed.

Lemma calls_asking prop evs out v : asking prop evs out v → calls out = [].
Proof.
  induction 1 as [evs v A|evs line evs' out v S V A IH].
  - apply calls_shown.
  - now rewrite !calls_app, calls_shown, calls_rejected, IH.
Qed.

(** *** The batch *)

Lemma deliver_error_listening s id c e :
  listening s id c →
  deliver (StreamError e) s = invoke_line (cb c) (Err e) s.
Proof.
  intros [Hh _ _ _ _ _ He _]. unfold deliver. rewrite Hh, He. simpl.
  unfold run_error. now rewrite Hh.
Qed.

Lemma invoke_rec_err k e s : invoke_rec k (Err e) s = emit (Call [AErr e]) s.
Proof. destruct k; reflexivity. Qed.

(** An error only reaches the caller's callback, once per live series:
    it leaves the listeners, the flow and the terminal mode alone. *)
Lemma invoke_line_err_frame k e : ∀ s,
  let s' := invoke_line k (Err e) s in
  halted s' = halted s
  ∧ data_listeners s' = data_listeners s
  ∧ error_listeners s' = error_listeners s
  ∧ paused s' = paused s
  ∧ raw_mode s' = raw_mode s.
Proof.
  induction k as [|p k IH|series t rest res k]; intros s; simpl.
  - now repeat split.
  - apply IH.
  - destruct (is_finished series s); [now repeat split|].
    rewrite invoke_rec_err. now repeat split.
Qed.

Lemma calls_batch fs res evs out r : batch fs res evs out r → calls out = [].
Proof.
  induction 1 as [res|f fs res evs sh line evs' out r A B IH
                  |f fs res evs sh v e A].
  - reflexivity.
  - now rewrite calls_app, (calls_answers _ _ _ _ A), IH.
  - exact (calls_asking _ _ _ _ A).
Qed.

(** The series iterator follows the sequential reading of the batch. *)
Lemma iterate_batch fs res evs out r :
  batch fs res evs out r →
  ∀ series k s, idle s → is_finished series s = false →
  ∃ s', feed evs (iterate series fs res k s) = conclude series k r s'
        ∧ halted s' = false ∧ shows s s' out.
Proof.
  induction 1 as [res|f fs res evs sh line evs' out r A B IH
                  |f fs res evs sh v e A]; intros series k s I Hf.
  - exists s. simpl. rewrite Hf. split; [reflexivity|].
    split; [apply I|]. now apply shows_same.
  - destruct (getInput_answers _ _ _ _ A (KItem series f fs res k) s I)
      as (s1 & F & I1 & T1).
    assert (Hf1 : is_finished series s1 = false)
      by (unfold is_finished in *; now rewrite (shows_finished _ _ _ T1)).
    destruct (IH series k s1 I1 Hf1) as (s2 & F2 & H2 & T2).
    exists s2. split; [|split; [exact H2|]].
    + rewrite feed_app. simpl iterate. rewrite F. exact F2.
    + exact (shows_trans _ _ _ _ _ T1 T2).
  - destruct (getInput_asking _ _ _ _ A (KItem series f fs res k) s I)
      as (id & L & T).
    exists (feed evs (getInput f (KItem series f fs res k) s)).
    split; [|split; [apply L|exact T]].
    rewrite feed_app. simpl iterate. simpl feed.
    rewrite (deliver_error_listening _ _ _ e L). simpl.
    unfold is_finished in *. now rewrite (shows_finished _ _ _ T), Hf.
Qed.

Lemma visible_conclude series r s :
  visible (trace (conclude series KUserRec r s))
  = (visible (trace s) ++ [Call (reply_args ARecord r)])%list.
Proof. destruct r; simpl; now rewrite visible_app. Qed.

Lemma record_get_put key line res :
  record_get key (record_put key line res) = Some line.
Proof.
  induction res as [|[k l] res IH]; simpl.
  - now rewrite String.eqb_refl.
  - destruct (String.eqb k key) eqn:E; simpl; now rewrite E.
Qed.

Lemma record_get_put_ne key key' line res :
  String.eqb key key' = false →
  record_get key' (record_put key line res) = record_get key' res.
Proof.
  intros N. induction res as [|[k l] res IH]; simpl.
  - now rewrite N.
  - destruct (String.eqb k key) eqn:E; simpl.
    + apply String.eqb_eq in E. subst k. now rewrite N.
    + now rewrite IH.
Qed.

Lemma record_get_set key line res :
  String.eqb key "__proto__" = false →
  record_get key (record_set key line res) = Some line.
Proof. intros N. unfold record_set. rewrite N. apply record_get_put. Qed.

Lemma record_get_set_keeps key key' line res :
  is_Some (record_get key' res) →
  is_Some (record_get key' (record_set key line res)).
Proof.
  unfold record_set. destruct (String.eqb key "__proto__"); [auto|].
  induction res as [|[k l] res IH]; simpl; intros [x H]; [discriminate|].
  destruct (String.eqb k key) eqn:E; simpl;
    destruct (String.eqb k key') eqn:E'; eauto.
Qed.

Lemma batch_keeps fs res evs out res' :
  batch fs res evs out (Ok res') →
  ∀ key, is_Some (record_get key res) → is_Some (record_get key res').
Proof.
  intros B. remember (Ok res') as r eqn:R. revert res' R.
  induction B as [res|f fs res evs sh line evs' out r A B IH
                  |f fs res evs sh v e A];
    intros res' R key Hk; [|eauto using record_get_set_keeps|discriminate].
  injection R as <-. exact Hk.
Qed.

(** A batch that ends well has an answer for every field, the name
    [__proto__] apart. *)
Lemma batch_complete fs res evs out res' :
  batch fs res evs out (Ok res') →
  Forall (λ f, String.eqb (field_key f) "__proto__" = false →
               is_Some (record_get (field_key f) res')) fs.
Proof.
  intros B. remember (Ok res') as r eqn:R. revert res' R.
  induction B as [res|f fs res evs sh line evs' out r A B IH
                  |f fs res evs sh v e A];
    intros res' R; [constructor| |discriminate].
  subst r. constructor; [|now apply IH].
  intros N. eapply batch_keeps; [exact B|]. rewrite record_get_set; eauto.
Qed.

Lemma idle_new_series s :
  idle s →
  idle (set_series (finished s) (S (next_series s)) s)
  ∧ is_finished (next_series s)
      (set_series (finished s) (S (next_series s)) s) = false.
Proof.
  intros [? ? ? ? ? ? Hf]. split.
  - constructor; try assumption. simpl. intros i Hi. apply Hf. lia.
  - apply Hf. lia.
Qed.

(** [get] follows the sequential reading of the batch. *)
Lemma get_batch msg evs out r k s :
  idle s →
  batch (map (known (properties s)) (vars_of msg)) [] evs out r →
  ∃ s', feed evs (get msg k s) = conclude (next_series s) k r s'
        ∧ halted s' = false
        ∧ visible (trace s') = (visible (trace s) ++ out)%list.
Proof.
  intros I B. destruct (idle_new_series s I) as [I1 F1].
  destruct (iterate_batch _ _ _ _ _ B (next_series s) k _ I1 F1)
    as (s' & E & H & S).
  exists s'. split; [exact E|]. split; [exact H|]. apply S.
Qed.

(** *** After a stream error *)

(** A read left pending takes up the line where it was. *)
Lemma listening_resumed prop v evs out line :
  resumed prop v evs out line →
  ∀ k id s,
  listening s id
    {| rd := reader_of (prop_hidden prop); value_ := v; buffer_ := "";
       cb := KInput prop k |} →
  ∃ s', feed evs s = invoke_line k (Ok line) s' ∧ idle s' ∧ shows s s' out.
Proof.
  intros R k id s L. destruct R as [evs line S V|evs line evs' out r S V A].
  - destruct (feed_submitted _ _ _ _ _ _ _ L S) as (s1 & F & I1 & T1).
    exists (emit (Log Input [(Yellow, effective prop line)]) s1).
    split; [|split].
    + rewrite F. simpl. now rewrite V.
    + auto with session.
    + apply (shows_trans _ s1 _ [] _ T1).
      constructor; try reflexivity. simpl. now rewrite visible_app.
  - destruct (feed_submitted _ _ _ _ _ _ _ L S) as (s1 & F & I1 & T1).
    destruct (getInput_answers _ _ _ _ A k _ (idle_log_invalid prop _ I1))
      as (s2 & F2 & I2 & T2).
    exists s2. split; [|split; [exact I2|]].
    + rewrite feed_app, F. simpl. rewrite V. exact F2.
    + apply (shows_trans _ s1 _ [] _ T1).
      exact (shows_trans _ _ _ _ _ (shows_log_invalid prop s1) T2).
Qed.

(** The fields answered at the head of a series. *)
Lemma iterate_prefix pre res evs out res1 :
  batch pre res evs out (Ok res1) →
  ∀ rest series k s, idle s →
  ∃ s1, feed evs (iterate series (pre ++ rest) res k s)
        = iterate series rest res1 k s1
        ∧ idle s1 ∧ shows s s1 out.
Proof.
  intros B. remember (Ok res1) as r eqn:R. revert res1 R.
  induction B as [res|f fs res evs sh line evs' out r A B IH
                  |f fs res evs sh v e A];
    intros res1 R rest series k s I; [|subst r|discriminate].
  - injection R as <-. exists s. split; [reflexivity|].
    split; [exact I|]. now apply shows_same.
  - destruct (getInput_answers _ _ _ _ A
                (KItem series f (fs ++ rest) res k) s I)
      as (s1 & F & I1 & T1).
    destruct (IH res1 eq_refl rest series k s1 I1) as (s2 & F2 & I2 & T2).
    exists s2. split; [|split; [exact I2|]].
    + rewrite feed_app. simpl iterate. rewrite F. exact F2.
    + exact (shows_trans _ _ _ _ _ T1 T2).
Qed.

(** A series that has dropped its callback still goes through its fields
    when the lines come, and calls nobody, whatever the end. *)
Lemma iterate_finished fs res evs out r :
  batch fs res evs out r →
  ∀ series k s, idle s → is_finished series s = true →
  halted (feed evs (iterate series fs res k s)) = false
  ∧ shows s (feed evs (iterate series fs res k s)) out.
Proof.
  induction 1 as [res|f fs res evs sh line evs' out r A B IH
                  |f fs res evs sh v e A]; intros series k s I Hf.
  - simpl. rewrite Hf. split; [apply I|]. now apply shows_same.
  - destruct (getInput_answers _ _ _ _ A (KItem series f fs res k) s I)
      as (s1 & F & I1 & T1).
    assert (Hf1 : is_finished series s1 = true)
      by (unfold is_finished in *; now rewrite (shows_finished _ _ _ T1)).
    destruct (IH series k s1 I1 Hf1) as (H2 & T2).
    rewrite feed_app. simpl iterate. rewrite F.
    split; [exact H2|]. exact (shows_trans _ _ _ _ _ T1 T2).
  - destruct (getInput_asking _ _ _ _ A (KItem series f fs res k) s I)
      as (id & L & T).
    rewrite feed_app. simpl iterate. simpl feed.
    rewrite (deliver_error_listening _ _ _ e L). simpl.
    unfold is_finished in *. rewrite (shows_finished _ _ _ T), Hf.
    split; [apply L|exact T].
Qed.

Lemma listening_drop_callback series s id c :
  (series < next_series s)%nat →
  listening s id c → listening (drop_callback series s) id c.
Proof.
  intros Hs [? ? ? ? ? ? ? Hf]. constructor; try assumption.
  intros i Hi. unfold is_finished. simpl.
  rewrite orb_false_iff. split.
  - apply Nat.eqb_neq. simpl in Hi. lia.
  - apply Hf. exact Hi.
Qed.

(** A stream error while a field is asked: the callback gets the error,
    the series drops it, and the read stays.  Lines that come later
    complete the failing field and the fields after it; nobody is called
    at the end. *)
Lemma iterate_after_error f fs res evs out v e evs2 out2 line evs3 out3 r :
  asking f evs out v →
  resumed f v evs2 out2 line →
  batch fs (record_set (field_key f) line res) evs3 out3 r →
  ∀ series k s, idle s → is_finished series s = false →
  (series < next_series s)%nat →
  let s' := feed (evs ++ [StreamError e] ++ evs2 ++ evs3)
              (iterate series (f :: fs) res k s) in
  halted s' = false
  ∧ visible (trace s')
    = (visible (trace s) ++ out ++ [Call [AErr e]] ++ out2 ++ out3)%list.
Proof.
  intros A R B series k s I Hf Hs s'.
  destruct (getInput_asking _ _ _ _ A (KItem series f fs res k) s I)
    as (id & L & T).
  set (s1 := feed evs (getInput f (KItem series f fs res k) s)) in *.
  set (s2 := drop_callback series (emit (Call [AErr e]) s1)).
  assert (E : feed (evs ++ [StreamError e])
                (iterate series (f :: fs) res k s) = s2).
  { rewrite feed_app. simpl iterate. simpl feed. fold s1.
    rewrite (deliver_error_listening _ _ _ e L). simpl.
    unfold is_finished in *. rewrite (shows_finished _ _ _ T), Hf.
    now rewrite invoke_rec_err. }
  assert (L2 : listening s2 id
                 {| rd := reader_of (prop_hidden f); value_ := v;
                    buffer_ := "";
                    cb := KInput f (KItem series f fs res k) |}).
  { apply listening_drop_callback; [|now apply listening_emit].
    simpl. now rewrite (shows_series _ _ _ T). }
  destruct (listening_resumed _ _ _ _ _ R _ _ _ L2) as (s3 & F3 & I3 & T3).
  assert (Hf3 : is_finished series s3 = true).
  { unfold is_finished. rewrite (shows_finished _ _ _ T3). simpl.
    now rewrite Nat.eqb_refl. }
  destruct (iterate_finished _ _ _ _ _ B series k s3 I3 Hf3) as (H4 & T4).
  assert (E' : s' = feed evs3 (iterate series fs
                                 (record_set (field_key f) line res) k s3)).
  { unfold s'. rewrite app_assoc, feed_app, E, feed_app, F3. reflexivity. }
  rewrite E'. split; [exact H4|].
  rewrite (shows_visible _ _ _ T4), (shows_visible _ _ _ T3).
  unfold s2. simpl. rewrite visible_app, (shows_visible _ _ _ T). simpl.
  now rewrite <- !app_assoc.
Qed.

(** [get] after a stream error: the fields [pre] have been answered, the
    field [f] is being asked when the error comes, and later lines answer
    [f] and the fields [post]. *)
Lemma get_after_error msg pre f post evs1 out1 res1 evs2 out2 v e
    evs3 out3 line evs4 out4 r k s :
  idle s →
  map (known (properties s)) (vars_of msg) = (pre ++ f :: post)%list →
  batch pre [] evs1 out1 (Ok res1) →
  asking f evs2 out2 v →
  resumed f v evs3 out3 line →
  batch post (record_set (field_key f) line res1) evs4 out4 r →
  visible (trace (feed (evs1 ++ evs2 ++ [StreamError e] ++ evs3 ++ evs4)
                    (get msg k s)))
  = (visible (trace s) ++ out1 ++ out2 ++ [Call [AErr e]] ++ out3
     ++ out4)%list.
Proof.
  intros I Hv B1 A R B2. destruct (idle_new_series s I) as [I1 F1].
  unfold get. rewrite Hv.
  destruct (iterate_prefix _ _ _ _ _ B1 (f :: post) (next_series s) k _ I1)
    as (s1 & E1 & I2 & T1).
  rewrite feed_app, E1.
  assert (Hf : is_finished (next_series s) s1 = false).
  { unfold is_finished in *. now rewrite (shows_finished _ _ _ T1). }
  assert (Hs : (next_series s < next_series s1)%nat).
  { rewrite (shows_series _ _ _ T1). simpl. lia. }
  destruct (iterate_after_error _ _ _ _ _ _ e _ _ _ _ _ _ A R B2
              (next_series s) k s1 I2 Hf Hs) as (_ & V).
  rewrite V, (shows_visible _ _ _ T1). simpl. now rewrite <- !app_assoc.
Qed.

(** *** Target objects *)

Lemma assoc_get_set_eq k v props : assoc_get k (assoc_set k v props) = v.
Proof.
  induction props as [|[k0 w] props IH]; simpl.
  - now rewrite String.eqb_refl.
  - destruct (String.eqb k0 k) eqn:E; simpl; now rewrite E.
Qed.

Lemma assoc_get_set_ne k k' v props :
  String.eqb k k' = false →
  assoc_get k' (assoc_set k v props) = assoc_get k' props.
Proof.
  intros N. induction props as [|[k0 w] props IH]; simpl.
  - now rewrite N.
  - destruct (String.eqb k0 k) eqn:E; simpl.
    + apply String.eqb_eq in E. subst k0. now rewrite N.
    + now rewrite IH.
Qed.

Lemma has_own_set_eq k v props : has_own k (assoc_set k v props) = true.
Proof.
  unfold has_own.
  induction props as [|[k0 w] props IH]; simpl.
  - now rewrite String.eqb_refl.
  - destruct (String.eqb k0 k) eqn:E; simpl; rewrite E; simpl; auto.
Qed.

Lemma has_own_set_ne k k' v props :
  String.eqb k k' = false →
  has_own k' (assoc_set k v props) = has_own k' props.
Proof.
  intros N. unfold has_own.
  induction props as [|[k0 w] props IH]; simpl.
  - now rewrite N.
  - destruct (String.eqb k0 k) eqn:E; simpl.
    + apply String.eqb_eq in E. subst k0. now rewrite N.
    + now rewrite IH.
Qed.

Lemma assoc_get_not_own k props :
  has_own k props = false → assoc_get k props = VUndefined.
Proof.
  unfold has_own.
  induction props as [|[k0 w] props IH]; simpl; [reflexivity|].
  destruct (String.eqb k0 k); simpl; [discriminate|exact IH].
Qed.

Lemma putNested_descend last key k2 rest v :
  putNested last (key :: k2 :: rest) v
  = (cur ← prop_get last key;
     last1 ← (if truthy_value cur then Done last
              else prop_set last key (VObj []));
     child ← prop_get last1 key;
     child' ← putNested child (k2 :: rest) v;
     prop_set last1 key child').
Proof. reflexivity. Qed.

(** Nothing is written through [undefined], and what is written inside a
    built-in object is not followed. *)
Lemma putNested_native path v : putNested VNative path v = Native.
Proof. destruct path as [|key [|k2 rest]]; reflexivity. Qed.

Lemma putNested_undefined key rest v :
  putNested VUndefined (key :: rest) v = TypeError.
Proof. destruct rest; reflexivity. Qed.

(** A write that goes through a primitive leaves it as it is. *)
Lemma prop_set_primitive w key v :
  match w with VBool _ | VNum _ | VStr _ => True | _ => False end →
  prop_set w key v = Done w.
Proof. destruct w; simpl; tauto. Qed.

Lemma putNested_primitive w path v obj' :
  match w with VBool _ | VNum _ | VStr _ => True | _ => False end →
  putNested w path v = Done obj' → obj' = w.
Proof.
  intros W P. pose proof (prop_set_primitive w) as S.
  destruct path as [|key [|k2 rest]].
  - simpl in P. rewrite (S _ _ W) in P. congruence.
  - simpl in P. rewrite (S _ _ W) in P. congruence.
  - rewrite putNested_descend in P.
    destruct (prop_get w key) as [cur| |]; try discriminate.
    cbn [mbind outcome_bind] in P.
    assert (L : (if truthy_value cur then Done w
                 else prop_set w key (VObj [])) = Done w)
      by (destruct (truthy_value cur); [reflexivity|exact (S _ _ W)]).
    rewrite L in P. cbn [mbind outcome_bind] in P.
    destruct (prop_get w key) as [child| |]; try discriminate.
    cbn [mbind outcome_bind] in P.
    destruct (putNested child (k2 :: rest) v) as [child'| |];
      try discriminate.
    cbn [mbind outcome_bind] in P. rewrite (S _ _ W) in P. congruence.
Qed.

Lemma not_proto key :
  inherits object_members key = false → String.eqb key "__proto__" = false.
Proof.
  intros I. destruct (String.eqb key "__proto__") eqn:E; [|reflexivity].
  apply String.eqb_eq in E. subst key. discriminate.
Qed.

Ltac unfold_access :=
  repeat progress
    (cbn [mbind outcome_bind prop_get prop_set negb andb truthy_value] in *;
     rewrite ?andb_false_r, ?has_own_set_eq, ?assoc_get_set_eq in *).

(** One step of [putNested] on an object, with more than one segment
    left: the child behind [key] is an own property, or is made one when
    the object has and inherits nothing under that name; it is written
    into, and seen again from the parent. *)
Lemma putNested_step props key k2 rest v obj' :
  putNested (VObj props) (key :: k2 :: rest) v = Done obj' →
  ∃ props1 child',
    obj' = VObj (assoc_set key child' props1)
    ∧ putNested (assoc_get key props1) (k2 :: rest) v = Done child'
    ∧ props1 = (if truthy_value (assoc_get key props) then props
                else assoc_set key (VObj []) props)
    ∧ (has_own key props = true ∨ inherits object_members key = false).
Proof.
  intros P. rewrite putNested_descend in P. cbn [prop_get] in P.
  destruct (has_own key props) eqn:O.
  - cbn [mbind outcome_bind] in P.
    destruct (truthy_value (assoc_get key props)) eqn:T.
    + unfold_access. rewrite ?O in P. unfold_access.
      destruct (putNested (assoc_get key props) (k2 :: rest) v)
        as [child'| |] eqn:C; try discriminate.
      unfold_access. rewrite ?O in P. unfold_access.
      injection P as <-. exists props, child'. auto.
    + unfold_access. rewrite ?O in P. unfold_access.
      destruct (putNested (VObj []) (k2 :: rest) v) as [child'| |] eqn:C;
        try discriminate.
      unfold_access. injection P as <-.
      exists (assoc_set key (VObj []) props), child'.
      rewrite assoc_get_set_eq. auto.
  - destruct (inherits object_members key) eqn:I.
    + unfold_access. rewrite ?O, ?I in P. unfold_access.
      now rewrite putNested_native in P.
    + pose proof (not_proto _ I) as N. unfold_access.
      rewrite ?N in P. unfold_access.
      destruct (putNested (VObj []) (k2 :: rest) v) as [child'| |] eqn:C;
        try discriminate.
      unfold_access. rewrite ?N in P. unfold_access. injection P as <-.
      exists (assoc_set key (VObj []) props), child'.
      rewrite assoc_get_set_eq, (assoc_get_not_own _ _ O). auto.
Qed.

(** The last step: the assignment, which only the inherited [__proto__]
    escapes. *)
Lemma prop_set_object props key v obj' :
  prop_set (VObj props) key v = Done obj' →
  obj' = VObj props ∨ obj' = VObj (assoc_set key v props).
Proof.
  simpl. destruct (String.eqb key "__proto__" && negb (has_own key props)).
  - destruct v; intros [= <-] || discriminate; auto.
  - intros [= <-]. auto.
Qed.

Lemma putNested_object path : ∀ props v obj',
  putNested (VObj props) path v = Done obj' → ∃ props', obj' = VObj props'.
Proof.
  destruct path as [|key [|k2 rest]]; intros props v obj' P.
  - destruct (prop_set_object _ _ _ _ P) as [->| ->]; eauto.
  - destruct (prop_set_object _ _ _ _ P) as [->| ->]; eauto.
  - destruct (putNested_step _ _ _ _ _ _ P) as (props1 & child' & -> & _).
    eauto.
Qed.

Lemma putNested_frame p : ∀ obj v obj' q w,
  putNested obj p v = Done obj' →
  diverge p q = true →
  lookup_path obj q = Some w →
  lookup_path obj' q = Some w.
Proof.
  induction p as [|key rest IH]; intros obj v obj' q w P D L;
    [discriminate|].
  destruct q as [|k' q']; [discriminate|]. simpl in D.
  destruct obj as [| | | | |props|]; try discriminate.
  destruct rest as [|k2 rest].
  - destruct (String.eqb key k') eqn:E; [discriminate|].
    destruct (prop_set_object _ _ _ _ P) as [->| ->]; [exact L|].
    simpl in *. now rewrite assoc_get_set_ne.
  - destruct (putNested_step _ _ _ _ _ _ P)
      as (props1 & child' & -> & C & -> & _).
    simpl in L |- *.
    destruct (String.eqb key k') eqn:E.
    + apply String.eqb_eq in E. subst k'. rewrite assoc_get_set_eq.
      assert (T : truthy_value (assoc_get key props) = true).
      { destruct q' as [|k3 q3]; [discriminate|]. simpl in L.
        destruct (assoc_get key props); try discriminate. reflexivity. }
      rewrite T in C. exact (IH _ _ _ _ _ C D L).
    + rewrite assoc_get_set_ne by exact E.
      destruct (truthy_value (assoc_get key props)); [exact L|].
      now rewrite assoc_get_set_ne.
Qed.

(** A truthy value before the end of the path is not replaced: an object
    stays an object, anything else stays what it is. *)
Lemma putNested_keeps_truthy p : ∀ obj v obj' q w,
  putNested obj p v = Done obj' →
  proper_prefix q p = true →
  lookup_path obj q = Some w →
  truthy_value w = true →
  match w with
  | VObj _ => object_at obj' q = true
  | _ => lookup_path obj' q = Some w
  end.
Proof.
  induction p as [|key rest IH]; intros obj v obj' q w P D L T.
  - destruct q; discriminate.
  - destruct q as [|k' q'].
    + simpl in L. injection L as <-.
      destruct obj as [| | | | |props|]; try discriminate.
      * simpl. f_equal. exact (putNested_primitive (VBool b) _ v _ I P).
      * simpl. f_equal. exact (putNested_primitive (VNum n) _ v _ I P).
      * simpl. f_equal. exact (putNested_primitive (VStr s) _ v _ I P).
      * destruct (putNested_object _ _ _ _ P) as [props' ->]. reflexivity.
      * now rewrite putNested_native in P.
    + simpl in D. apply andb_true_iff in D as [E D].
      apply String.eqb_eq in E. subst k'.
      destruct obj as [| | | | |props|]; try discriminate.
      destruct rest as [|k2 rest]; [destruct q'; discriminate|].
      destruct (putNested_step _ _ _ _ _ _ P)
        as (props1 & child' & -> & C & -> & _).
      simpl in L.
      assert (T1 : truthy_value (assoc_get key props) = true).
      { destruct q' as [|k3 q3]; simpl in L.
        - injection L as ->. exact T.
        - destruct (assoc_get key props); try discriminate; reflexivity. }
      rewrite T1 in C.
      pose proof (IH _ _ _ _ _ C D L T) as R.
      destruct w; unfold object_at in *; simpl;
        rewrite assoc_get_set_eq; exact R.
Qed.

Lemma putNested_keeps_object p obj v obj' q :
  putNested obj p v = Done obj' →
  proper_prefix q p = true →
  object_at obj q = true →
  object_at obj' q = true.
Proof.
  intros P D L. unfold object_at in L.
  destruct (lookup_path obj q) as [[| | | | |props|]|] eqn:E;
    try discriminate.
  exact (putNested_keeps_truthy _ _ _ _ _ _ P D E eq_refl).
Qed.

(** Where the path can be followed, the value is written and can be read
    back. *)
Lemma writable_empty_object obj key rest :
  writable obj (key :: rest) = true → ∃ props, obj = VObj props.
Proof. destruct obj, rest; try discriminate; eauto. Qed.

Lemma putNested_writable path : ∀ obj v,
  writable obj path = true →
  ∃ obj', putNested obj path v = Done obj'
          ∧ lookup_path obj' path = Some v.
Proof.
  induction path as [|key rest IH]; intros obj v W; [discriminate|].
  destruct (writable_empty_object _ _ _ W) as [props ->].
  destruct rest as [|k2 rest].
  - simpl in W. simpl putNested. cbn [prop_set].
    destruct (String.eqb key "__proto__" && negb (has_own key props)) eqn:E.
    + apply andb_true_iff in E as [E1 E2]. apply negb_true_iff in E2.
      rewrite E1, E2 in W. discriminate.
    + eexists. split; [reflexivity|]. simpl. now rewrite assoc_get_set_eq.
  - rewrite putNested_descend. cbn [prop_get].
    change (writable (VObj props) (key :: k2 :: rest))
      with (if has_own key props then
              if truthy_value (assoc_get key props)
              then writable (assoc_get key props) (k2 :: rest)
              else writable (VObj []) (k2 :: rest)
            else negb (inherits object_members key)
                 && writable (VObj []) (k2 :: rest)) in W.
    destruct (has_own key props) eqn:O.
    + cbn [mbind outcome_bind].
      destruct (truthy_value (assoc_get key props)) eqn:T;
        destruct (IH _ v W) as (child' & P & L).
      * unfold_access. rewrite ?O. unfold_access. rewrite P.
        unfold_access. rewrite ?O. unfold_access.
        eexists. split; [reflexivity|]. simpl. now rewrite assoc_get_set_eq.
      * unfold_access. rewrite ?O. unfold_access. rewrite P.
        unfold_access.
        eexists. split; [reflexivity|]. simpl. now rewrite assoc_get_set_eq.
    + apply andb_true_iff in W as [I W]. apply negb_true_iff in I.
      pose proof (not_proto _ I) as N.
      destruct (IH _ v W) as (child' & P & L).
      rewrite I. unfold_access. rewrite ?N. unfold_access. rewrite P.
      unfold_access. rewrite ?N. unfold_access.
      eexists. split; [reflexivity|]. simpl. now rewrite assoc_get_set_eq.
Qed.

Lemma writable_ext props props1 key rest :
  has_own key props1 = has_own key props →
  assoc_get key props1 = assoc_get key props →
  writable (VObj props1) (key :: rest) = writable (VObj props) (key :: rest).
Proof. intros H G. destruct rest; simpl; now rewrite H, ?G. Qed.

Lemma writable_descend props key k2 rest :
  writable (VObj props) (key :: k2 :: rest)
  = (if has_own key props then
       if truthy_value (assoc_get key props)
       then writable (assoc_get key props) (k2 :: rest)
       else writable (VObj []) (k2 :: rest)
     else negb (inherits object_members key)
          && writable (VObj []) (k2 :: rest)).
Proof. reflexivity. Qed.

(** A write along one path leaves a path that parts from it as easy to
    follow as it was. *)
Lemma writable_preserved p : ∀ obj v obj1 q,
  putNested obj p v = Done obj1 →
  diverge p q = true →
  writable obj q = true →
  writable obj1 q = true.
Proof.
  induction p as [|key rest IH]; intros obj v obj1 q P D W; [discriminate|].
  destruct q as [|k' q']; [discriminate|].
  destruct (writable_empty_object _ _ _ W) as [props ->].
  simpl in D. destruct rest as [|k2 rest].
  - destruct (String.eqb key k') eqn:E; [discriminate|].
    destruct (prop_set_object _ _ _ _ P) as [->| ->]; [exact W|].
    rewrite <- W. apply writable_ext;
      [now apply has_own_set_ne|now apply assoc_get_set_ne].
  - destruct (putNested_step _ _ _ _ _ _ P)
      as (props1 & child' & -> & C & -> & Hown).
    destruct (String.eqb key k') eqn:E.
    + apply String.eqb_eq in E. subst k'.
      destruct q' as [|k3 q']; [discriminate|].
      rewrite writable_descend in W |- *.
      rewrite has_own_set_eq, assoc_get_set_eq.
      assert (G : ∃ x, putNested x (k2 :: rest) v = Done child'
                       ∧ writable x (k3 :: q') = true).
      { destruct (has_own key props) eqn:O.
        - destruct (truthy_value (assoc_get key props)) eqn:T.
          + eauto.
          + rewrite assoc_get_set_eq in C. eauto.
        - apply andb_true_iff in W as [_ W].
          rewrite (assoc_get_not_own _ _ O) in C. simpl in C.
          rewrite assoc_get_set_eq in C. eauto. }
      destruct G as (x & Cx & Wx).
      destruct (writable_empty_object _ _ _ Wx) as [xs ->].
      destruct (putNested_object _ _ _ _ Cx) as [cs ->].
      simpl truthy_value. cbv iota. exact (IH _ _ _ _ Cx D Wx).
    + rewrite <- W. apply writable_ext.
      * rewrite has_own_set_ne by exact E.
        destruct (truthy_value (assoc_get key props)); [reflexivity|].
        now apply has_own_set_ne.
      * rewrite assoc_get_set_ne by exact E.
        destruct (truthy_value (assoc_get key props)); [reflexivity|].
        now apply assoc_get_set_ne.
Qed.

Lemma lookup_prefix_object q : ∀ obj p v,
  lookup_path obj p = Some v →
  proper_prefix q p = true →
  object_at obj q = true.
Proof.
  induction q as [|k q IH]; intros obj p v L D.
  - destruct p as [|k' p]; [discriminate|].
    destruct obj; try discriminate. reflexivity.
  - destruct p as [|k' p]; [discriminate|]. simpl in D.
    apply andb_true_iff in D as [E D]. apply String.eqb_eq in E. subst k'.
    destruct obj; try discriminate. simpl in L.
    unfold object_at. simpl. exact (IH _ _ _ L D).
Qed.

(** *** The order of the keys *)

Lemma insert_index_perm n key l : insert_index n key l ≡ₚ (n, key) :: l.
Proof.
  induction l as [|[m k] l IH]; simpl; [reflexivity|].
  destruct (n <=? m)%N; [reflexivity|].
  rewrite IH. apply Permutation_swap.
Qed.

(** [Object.keys] lists every key once, whatever the order. *)
Lemma Object_keys_perm res : Object_keys res ≡ₚ map fst res.
Proof.
  unfold Object_keys. induction (map fst res) as [|key keys IH];
    [reflexivity|].
  simpl. unfold is_index at 1.
  destruct (array_index key) as [n|]; simpl.
  - rewrite insert_index_perm. simpl. now rewrite IH.
  - rewrite <- Permutation_middle. now rewrite IH.
Qed.

Lemma Object_keys_In res key :
  In key (Object_keys res) ↔ In key (map fst res).
Proof.
  rewrite <- !list_elem_of_In. now rewrite Object_keys_perm.
Qed.

Lemma Object_keys_NoDup res :
  NoDup (map fst res) → NoDup (Object_keys res).
Proof. now rewrite Object_keys_perm. Qed.

Lemma Object_keys_Forall (P : string → Prop) res :
  Forall (λ kv, P (fst kv)) res → Forall P (Object_keys res).
Proof.
  intros F. rewrite Object_keys_perm. now apply Forall_fmap.
Qed.

(** *** The merge *)

Lemma merge_keys_frame results ks : ∀ obj obj' q w,
  merge_keys obj ks results = Done obj' →
  Forall (λ key, diverge (split_dot key) q = true) ks →
  lookup_path obj q = Some w →
  lookup_path obj' q = Some w.
Proof.
  induction ks as [|key ks IH]; intros obj obj' q w M F L; simpl in M.
  - now injection M as <-.
  - destruct (putNested obj (split_dot key) (record_value key results))
      as [obj1| |] eqn:P; try discriminate.
    cbn [mbind outcome_bind] in M. inversion F as [|? ? D F']; subst.
    exact (IH _ _ _ _ M F' (putNested_frame _ _ _ _ _ _ P D L)).
Qed.

Lemma merge_keys_keeps results ks : ∀ obj obj' q w,
  merge_keys obj ks results = Done obj' →
  Forall (λ key, diverge (split_dot key) q = true
                 ∨ proper_prefix q (split_dot key) = true) ks →
  lookup_path obj q = Some w →
  truthy_value w = true →
  match w with
  | VObj _ => object_at obj' q = true
  | _ => lookup_path obj' q = Some w
  end.
Proof.
  induction ks as [|key ks IH]; intros obj obj' q w M F L T; simpl in M.
  - injection M as <-. unfold object_at. rewrite L. now destruct w.
  - destruct (putNested obj (split_dot key) (record_value key results))
      as [obj1| |] eqn:P; try discriminate.
    cbn [mbind outcome_bind] in M. inversion F as [|? ? D F']; subst.
    destruct D as [D|D].
    + exact (IH _ _ _ _ M F' (putNested_frame _ _ _ _ _ _ P D L) T).
    + pose proof (putNested_keeps_truthy _ _ _ _ _ _ P D L T) as K.
      destruct w as [| | | | |props|];
        try exact (IH _ _ _ _ M F' K T).
      unfold object_at in K.
      destruct (lookup_path obj1 q) as [[| | | | |props1|]|] eqn:L1;
        try discriminate.
      exact (IH _ _ _ (VObj props1) M F' L1 eq_refl).
Qed.

Lemma merge_keys_writes results ks : ∀ obj obj' key,
  merge_keys obj ks results = Done obj' →
  NoDup ks →
  In key ks →
  (∀ key', In key' ks → key' ≠ key →
           diverge (split_dot key') (split_dot key) = true) →
  writable obj (split_dot key) = true →
  lookup_path obj' (split_dot key) = Some (record_value key results).
Proof.
  induction ks as [|k ks IH]; intros obj obj' key M N Hin Hd W;
    [destruct Hin|].
  simpl in M.
  destruct (putNested obj (split_dot k) (record_value k results))
    as [obj1| |] eqn:P; try discriminate.
  cbn [mbind outcome_bind] in M.
  apply NoDup_cons in N as [Hk N].
  destruct (String.eqb k key) eqn:E.
  - apply String.eqb_eq in E. subst k.
    destruct (putNested_writable _ _ (record_value key results) W)
      as (o & P' & L).
    rewrite P in P'. injection P' as <-.
    apply (merge_keys_frame _ _ _ _ _ _ M); [|exact L].
    apply Forall_forall. intros key' Hin'.
    apply Hd; [right; now apply list_elem_of_In|].
    now intros ->.
  - apply String.eqb_neq in E.
    destruct Hin as [->|Hin]; [now destruct E|].
    apply (IH _ _ _ M N Hin).
    + intros key' Hin'. apply Hd. now right.
    + apply (writable_preserved _ _ _ _ _ P); [|exact W].
      apply Hd; [now left|exact E].
Qed.

Lemma record_value_In results key line :
  NoDup (map fst results) →
  In (key, line) results →
  record_value key results = VStr line.
Proof.
  unfold record_value.
  induction results as [|[k l] results IH]; intros N Hin; [destruct Hin|].
  simpl in N. apply NoDup_cons in N as [Hk N]. simpl.
  destruct Hin as [[= -> ->]|Hin]; [now rewrite String.eqb_refl|].
  destruct (String.eqb k key) eqn:E; [|now apply IH].
  apply String.eqb_eq in E. subst k. destruct Hk.
  apply list_elem_of_In. now apply (in_map fst _ (key, line)).
Qed.

(** The filter keeps exactly the names under which the target has and
    inherits nothing, or has [undefined]. *)
Lemma filter_undefined_flat obj : ∀ props kept,
  filter_undefined obj props = Done kept →
  ∀ prop, In prop kept ↔ In prop props ∧ prop_get obj prop = Done VUndefined.
Proof.
  induction props as [|p props IH]; intros kept F prop; simpl in F.
  - injection F as <-. simpl. tauto.
  - destruct (prop_get obj p) as [v| |] eqn:G; try discriminate.
    cbn [mbind outcome_bind] in F.
    destruct (filter_undefined obj props) as [rest| |]; try discriminate.
    cbn [mbind outcome_bind] in F. injection F as <-.
    specialize (IH rest eq_refl prop). simpl.
    destruct v; simpl; rewrite IH; split;
      try (intros [H|H]; [subst; auto|tauto]);
      try (intros [[H|H] G']; [subst; congruence || auto|tauto]);
      tauto.
Qed.

(** ** The claims *)

(** C1 at the chunk of the specification: the cooked reader calls back
    with both lines at once, although it has put the first line into the
    global [val]; the carry dies with the listener, and the next read
    starts from nothing and calls nobody. *)
Theorem readLine_two_lines_in_one_chunk :
  let s1 := deliver (Data ("first" ++ nl ++ "second" ++ nl))
              (readLine KUserLine (session ∅)) in
  let s2 := readLine KUserLine s1 in
  calls (trace s1) = [[ANull; AStr ("first" ++ nl ++ "second")]]
  ∧ val s1 = Some "first"
  ∧ data_listeners s1 = []
  ∧ calls (trace s2) = calls (trace s1)
  ∧ data_listeners s2
    = [(1%nat, {| rd := Cooked; value_ := ""; buffer_ := "";
                  cb := KUserLine |})].
Proof. vm_compute. repeat split. Qed.

(** C2 at the target of the specification: the filter reads the flat key
    "db.host", finds it undefined, and the property is prompted for; the
    answer then replaces the value the target had at that path. *)
Theorem addProperties_prompts_for_nested_property :
  let target := VObj [("db", VObj [("host", VStr "x")])] in
  let s1 := addProperties target ["db.host"] (session ∅) in
  filter_undefined target ["db.host"] = Done ["db.host"]
  ∧ visible (trace s1) = shown (FStr "db.host")
  ∧ calls (trace (feed [Data ("y" ++ nl)] s1))
    = [[ANull; AValue (VObj [("db", VObj [("host", VStr "y")])])]].
Proof. vm_compute. repeat split. Qed.

(** C3, as stated, fails.  A key whose value is defined but falsy, here
    [null], is overwritten with a new object when it lies on the path of
    a result key; the last key of a path is assigned whatever the target
    holds there; and a path through a name the target inherits does not
    stay in the target: the write is made in [Object.prototype]. *)
Lemma merge_overwrites_defined_keys :
  prop_get (VObj [("db", VNull); ("user", VStr "me")]) "db" = Done VNull
  ∧ merge (VObj [("db", VNull); ("user", VStr "me")])
          [("db.host", "localhost")]
    = Done (VObj [("db", VObj [("host", VStr "localhost")]);
                  ("user", VStr "me")])
  ∧ prop_get (VObj [("host", VStr "x")]) "host" = Done (VStr "x")
  ∧ merge (VObj [("host", VStr "x")]) [("host", "y")]
    = Done (VObj [("host", VStr "y")])
  ∧ merge (VObj []) [("__proto__.polluted", "x")] = Native.
Proof. repeat split. Qed.

(** C3, amended.  Of a merge that completes (no path leads into a
    built-in object):

    - a key that lies off the dotted paths of the result keys, at any
      depth, is not overwritten;
    - on a path, a key before the last one whose value is truthy is not
      overwritten: an object stays an object, into which the merge
      descends, and any other value stays what it is;
    - the last key of a path is assigned, whatever it holds, and a key
      before it that is missing or falsy has become an object: for every
      result key whose path parts from the paths of the other keys and
      can be followed ([writable]), the answer is read back along the
      path. *)
Theorem merge_overwrites_on_paths_only results obj obj' :
  merge obj results = Done obj' →
  (∀ q w,
     Forall (λ kv, diverge (split_dot (fst kv)) q = true) results →
     lookup_path obj q = Some w →
     lookup_path obj' q = Some w)
  ∧ (∀ q w,
       Forall (λ kv, diverge (split_dot (fst kv)) q = true
                     ∨ proper_prefix q (split_dot (fst kv)) = true) results →
       lookup_path obj q = Some w →
       truthy_value w = true →
       match w with
       | VObj _ => object_at obj' q = true
       | _ => lookup_path obj' q = Some w
       end)
  ∧ (∀ key line,
       NoDup (map fst results) →
       In (key, line) results →
       (∀ key', In key' (map fst results) → key' ≠ key →
                diverge (split_dot key') (split_dot key) = true) →
       writable obj (split_dot key) = true →
       lookup_path obj' (split_dot key) = Some (VStr line)
       ∧ ∀ q, proper_prefix q (split_dot key) = true →
              object_at obj' q = true).
Proof.
  intros M. unfold merge in M. split; [|split].
  - intros q w F L.
    exact (merge_keys_frame _ _ _ _ _ _ M
             (Object_keys_Forall (λ key, diverge (split_dot key) q = true)
                _ F) L).
  - intros q w F L T.
    exact (merge_keys_keeps _ _ _ _ _ _ M
             (Object_keys_Forall
                (λ key, diverge (split_dot key) q = true
                        ∨ proper_prefix q (split_dot key) = true) _ F) L T).
  - intros key line N Hin Hd W.
    assert (L : lookup_path obj' (split_dot key) = Some (VStr line)).
    { rewrite <- (record_value_In _ _ _ N Hin).
      apply (merge_keys_writes _ _ _ _ _ M).
      - now apply Object_keys_NoDup.
      - apply Object_keys_In. now apply (in_map fst _ (key, line)).
      - intros key' Hin'. apply Hd. now apply Object_keys_In.
      - exact W. }
    split; [exact L|]. intros q D. exact (lookup_prefix_object _ _ _ _ L D).
Qed.

Lemma merge_overwrites_on_paths_only_witness :
  lookup_path (VObj [("db", VObj [("host", VStr "localhost")]);
                     ("port", VNum 5432); ("user", VStr "me")])
              ["user"]
  = Some (VStr "me")
  ∧ lookup_path (VObj [("db", VObj [("host", VStr "localhost")]);
                       ("port", VNum 5432); ("user", VStr "me")])
                ["db"; "host"]
    = Some (VStr "localhost")
  ∧ object_at (VObj [("db", VObj [("host", VStr "localhost")]);
                     ("port", VNum 5432); ("user", VStr "me")])
              ["db"]
    = true.
Proof.
  destruct (merge_overwrites_on_paths_only
              [("db.host", "localhost")]
              (VObj [("db", VNull); ("port", VNum 5432);
                     ("user", VStr "me")])
              (VObj [("db", VObj [("host", VStr "localhost")]);
                     ("port", VNum 5432); ("user", VStr "me")])
              eq_refl) as (F & _ & W).
  split; [|split].
  - apply F; [|reflexivity]. repeat constructor.
  - apply (W "db.host" "localhost").
    + apply (bool_decide_unpack _). vm_compute. reflexivity.
    + now left.
    + intros key' [<-|[]] H. now destruct H.
    + reflexivity.
  - apply (W "db.host" "localhost").
    + apply (bool_decide_unpack _). vm_compute. reflexivity.
    + now left.
    + intros key' [<-|[]] H. now destruct H.
    + reflexivity.
    + reflexivity.
Defined.

(** C4, as stated, fails.  The validator is not run on the submitted
    line but on the line after the default has taken the place of an empty
    one: on a field with a default, an empty line that the validator
    rejects resolves the field, with the default, and no line that passes
    has been delivered. *)
Lemma empty_line_resolves_by_default :
  submitted false "" [Data nl] = Some ""
  ∧ run_validator (Predicate (λ line, negb (is_empty line))) "" = false
  ∧ trace (feed [Data nl] (getInput checked_port KUserLine (session ∅)))
    = [StdoutWrite (prompt_text checked_port); StdinSetEncoding; StdinPause;
       Log Input [(Yellow, "5432")]; Call [ANull; AStr "5432"]].
Proof. vm_compute. repeat split. Qed.

(** C4, amended.  For a field with a validator, pattern or predicate, the
    line that is tested is the submitted line, or the field's default when
    the submitted line is empty.  When the validator rejects it, nothing
    reaches the callback, neither a result nor an error: [getInput] logs
    the error, and the field's warning if it has one, and is then in the
    state of the same call for the same field and callback, the prompt
    shown again.  Whatever dialogue follows can only end with a line the
    validator accepts. *)
Theorem validator_failure_reprompts p v k s evs line :
  idle s →
  Field.validator p = Some v →
  submitted (Field.hidden p) "" evs = Some line →
  run_validator v (effective (FDesc p) line) = false →
  effective (FDesc p) line
  = (if is_empty line then
       match Field.default p with
       | Some d => if is_empty d then line else d
       | None => line
       end
     else line)
  ∧ rejected (FDesc p)
    = Log Error ((Plain, "Invalid input for ") :: grey_name (FDesc p))
      :: match Field.warning p with
         | Some w => if is_empty w then [] else [Log Error [(Plain, w)]]
         | None => []
         end
  ∧ (∃ s', feed evs (getInput (FDesc p) k s)
           = getInput (FDesc p) k (log_invalid (FDesc p) s')
           ∧ idle s'
           ∧ visible (trace (feed evs (getInput (FDesc p) k s)))
             = (visible (trace s) ++ shown (FDesc p) ++ rejected (FDesc p)
                ++ shown (FDesc p))%list
           ∧ calls (trace (feed evs (getInput (FDesc p) k s)))
             = calls (trace s))
  ∧ (∀ evs' out r,
       answers (FDesc p) evs' out r →
       run_validator v r = true
       ∧ ∃ s'', feed (evs ++ evs') (getInput (FDesc p) k s)
                = invoke_line k (Ok r) s''
                ∧ calls (trace s'') = calls (trace s)).
Proof.
  intros I Hv S R. set (prop := FDesc p) in *.
  assert (V : valid prop (effective prop line) = false)
    by (unfold valid; simpl; now rewrite Hv).
  change (Field.hidden p) with (prop_hidden prop) in S.
  destruct (getInput_listening prop k s I) as [L T].
  destruct (feed_submitted _ _ _ _ _ _ _ L S) as (s1 & F & I1 & T1).
  assert (E : feed evs (getInput prop k s)
              = getInput prop k (log_invalid prop s1))
    by (rewrite F; simpl; now rewrite V).
  pose proof (shows_trans _ _ _ (shown prop) _ T
                (shows_trans _ s1 _ [] _ T1 (shows_log_invalid prop s1)))
    as W1.
  split; [|split; [|split]].
  - unfold effective, prop, prop_default, or_else, truthy.
    destruct (is_empty line); [|reflexivity].
    destruct (Field.default p) as [d|]; [|reflexivity].
    now destruct (is_empty d).
  - unfold rejected, prop, prop_warning, or_else, truthy.
    destruct (Field.warning p) as [w|]; [|reflexivity].
    now destruct (is_empty w).
  - destruct (getInput_listening prop k _ (idle_log_invalid prop _ I1))
      as [_ T2].
    pose proof (shows_trans _ _ _ _ _ W1 T2) as W.
    rewrite <- E in W.
    exists s1. split; [exact E|]. split; [exact I1|]. split.
    + rewrite (shows_visible _ _ _ W). now rewrite <- !app_assoc.
    + rewrite (shows_calls _ _ _ W), !calls_app.
      rewrite calls_shown, calls_rejected. now rewrite !app_nil_r.
  - intros evs' out r A. split.
    + pose proof (answers_valid _ _ _ _ A) as Hr.
      unfold valid in Hr. simpl in Hr. now rewrite Hv in Hr.
    + destruct (getInput_answers _ _ _ _ A k _
                  (idle_log_invalid prop _ I1)) as (s2 & F2 & I2 & T3).
      exists s2. split; [now rewrite feed_app, E|].
      rewrite (shows_calls _ _ _ (shows_trans _ _ _ _ _ W1 T3)).
      rewrite !calls_app, calls_shown, calls_rejected.
      rewrite (calls_answers _ _ _ _ A). now rewrite !app_nil_r.
Qed.

Lemma validator_failure_reprompts_witness :
  visible (trace (feed [Data ("no" ++ nl)]
                    (getInput
                       (FDesc (yes_descriptor (Predicate (String.eqb "yes"))))
                       KUserLine (session ∅))))
  = [StdoutWrite [(Plain, "prompt"); (Plain, ": "); (Grey, "ok");
                  (Grey, ": ")];
     Log Error [(Plain, "Invalid input for "); (Grey, "ok")];
     Log Error [(Plain, "say yes")];
     StdoutWrite [(Plain, "prompt"); (Plain, ": "); (Grey, "ok");
                  (Grey, ": ")]].
Proof.
  pose proof (validator_failure_reprompts
                (yes_descriptor (Predicate (String.eqb "yes")))
                (Predicate (String.eqb "yes")) KUserLine (session ∅)
                [Data ("no" ++ nl)] "no") as W.
  destruct W as (_ & _ & (s' & _ & _ & V & _) & _);
    [by_computation|reflexivity|reflexivity|reflexivity|].
  exact V.
Defined.



(** C6. While characters arrive, the hidden reader writes nothing at all.
    On a terminator it leaves raw mode, has its listeners removed, writes
    exactly one newline, flushes, pauses the input and calls back with
    the trimmed value, in this order. *)
Theorem readLineHidden_contract s evs v t :
  idle s →
  absorbed true "" evs = Some v →
  is_terminator t = true →
  let s1 := readLineHidden KUserLine s in
  let s2 := feed (evs ++ [Data t]) s1 in
  trace (feed evs s1) = trace s1
  ∧ trace s2
    = (trace s1 ++ [SetRawMode false; StdoutWrite [(Plain, nl)];
                    StdoutFlush; StdinPause;
                    Call [ANull; AStr (trim v)]])%list
  ∧ raw_mode s2 = false
  ∧ data_listeners s2 = [] ∧ error_listeners s2 = []
  ∧ paused s2 = true.
Proof.
  intros I A Ht s1 s2.
  destruct (read_listening true KUserLine s I) as [L _].
  change (read true KUserLine s) with s1 in L.
  destruct (feed_absorbed _ _ _ _ _ _ _ L A) as (L1 & T1 & _).
  split; [exact T1|].
  assert (E : s2 = emit (Call [ANull; AStr (trim v)])
                     (hidden_close (next_id s) (feed evs s1))).
  { unfold s2. rewrite feed_app. simpl.
    rewrite (deliver_data_listening _ _ _ _ L1). simpl.
    unfold hidden_data. now rewrite Ht. }
  destruct (hidden_close_idle _ _ _ L1) as (I2 & T2 & P2 & R2 & _).
  rewrite E. simpl. rewrite T2, T1, <- app_assoc. simpl.
  repeat split; try assumption; apply I2.
Qed.

Lemma readLineHidden_contract_witness :
  trace (feed [Data "p"; Data "w"; Data " "; Data (chr CR)]
           (readLineHidden KUserLine (session ∅)))
  = [SetRawMode true; SetRawMode false; StdoutWrite [(Plain, nl)];
     StdoutFlush; StdinPause; Call [ANull; AStr "pw"]].
Proof.
  refine (proj1 (proj2 (readLineHidden_contract (session ∅)
                          [Data "p"; Data "w"; Data " "] "pw " (chr CR)
                          _ _ _))).
  - by_computation.
  - reflexivity.
  - reflexivity.
Defined.




(** C8, as stated, fails: a call to [start] on a started session returns
    [undefined], not the module. *)
Lemma start_again_returns_undefined :
  fst (start None None (snd (start None None (initial ∅)))) ≠ RBeseech.
Proof. discriminate. Qed.

(** C8, amended.  A second call to [start] is a no-op: it leaves the
    session as the first call made it and returns [undefined]; a call
    returns the module, for chaining, exactly when the session was not
    started before. *)
Theorem start_idempotent in1 out1 in2 out2 s :
  let s1 := snd (start in1 out1 s) in
  start in2 out2 s1 = (RUndefined, s1)
  ∧ started s1 = true
  ∧ fst (start in1 out1 s) = if started s then RUndefined else RBeseech.
Proof.
  unfold start. destruct (started s) eqn:E; simpl; rewrite ?E; auto.
Qed.

(** C9, as stated, fails on the path of a stream error: the callback
    then receives the error as its only argument, not [null] and the
    target. *)
Lemma addProperties_error_path :
  ∃ args,
    calls (trace (feed [StreamError "EIO"]
                    (addProperties (VObj []) ["host"] (session ∅))))
    = [args]
    ∧ ∀ target, args ≠ [ANull; AValue target].
Proof. exists [AErr "EIO"]. split; [reflexivity|discriminate]. Qed.

(** C9, amended.  When every requested property is already defined on
    the target, own or inherited, [addProperties] calls back with the
    target as first argument.  Otherwise it calls back once the batch over
    the remaining properties is over: with [null] and the target, into
    which the answers have been merged, when the batch ends well; with the
    error as only argument when the stream fails.  (A merge that throws
    calls nobody.) *)
Theorem addProperties_callback_arguments obj props s :
  idle s →
  (filter_undefined obj props = Done [] →
   addProperties obj props s = emit (Call [AValue obj]) s)
  ∧ (∀ kept, filter_undefined obj props = Done kept →
       ∀ name, In name kept
               ↔ In name props ∧ prop_get obj name = Done VUndefined)
  ∧ (∀ p ps evs out e,
       filter_undefined obj props = Done (p :: ps) →
       batch (map (known (properties s)) (map FStr (p :: ps))) [] evs out
             (Err e) →
       calls (trace (feed evs (addProperties obj props s)))
       = (calls (trace s) ++ [[AErr e]])%list)
  ∧ (∀ p ps evs out results,
       filter_undefined obj props = Done (p :: ps) →
       batch (map (known (properties s)) (map FStr (p :: ps))) [] evs out
             (Ok results) →
       (∀ obj', merge obj results = Done obj' →
          calls (trace (feed evs (addProperties obj props s)))
          = (calls (trace s) ++ [[ANull; AValue obj']])%list)
       ∧ (merge obj results = TypeError →
          calls (trace (feed evs (addProperties obj props s)))
          = calls (trace s)
          ∧ last (trace (feed evs (addProperties obj props s)))
            = Some Throw)).
Proof.
  intros I.
  assert (G : ∀ p ps evs out r,
            filter_undefined obj props = Done (p :: ps) →
            batch (map (known (properties s)) (map FStr (p :: ps))) [] evs
                  out r →
            ∃ s', feed evs (addProperties obj props s)
                  = conclude (next_series s) (KAdd obj) r s'
                  ∧ calls (trace s') = calls (trace s)).
  { intros p ps evs out r F B.
    destruct (get_batch (Several (map FStr (p :: ps))) _ _ _ (KAdd obj) s
                I B) as (s' & E & _ & T).
    exists s'. unfold addProperties. rewrite F. split; [exact E|].
    rewrite <- calls_visible, T, calls_app, calls_visible.
    rewrite (calls_batch _ _ _ _ _ B). now rewrite app_nil_r. }
  split; [|split; [|split]].
  - intros F. unfold addProperties. now rewrite F.
  - exact (filter_undefined_flat obj props).
  - intros p ps evs out e F B.
    destruct (G _ _ _ _ _ F B) as (s' & -> & C). simpl.
    now rewrite calls_app, C.
  - intros p ps evs out results F B.
    destruct (G _ _ _ _ _ F B) as (s' & -> & C). simpl. split.
    + intros obj' M. rewrite M. simpl. now rewrite calls_app, C.
    + intros M. rewrite M. simpl. rewrite calls_app, C. simpl.
      rewrite app_nil_r. split; [reflexivity|]. apply last_snoc.
Qed.

Lemma addProperties_callback_arguments_witness :
  addProperties (VObj []) ["toString"] (session ∅)
  = emit (Call [AValue (VObj [])]) (session ∅).
Proof.
  refine (proj1 (addProperties_callback_arguments
                   (VObj []) ["toString"] (session ∅) _) _).
  - by_computation.
  - reflexivity.
Defined.



(** ** Further properties *)

(** *** What every operation preserves *)

(** A property of the session that the elementary state changes keep is
    kept by every exported function and by every event. *)
Section Preserved.

Variable P : state → Prop.

Hypothesis P_emit : ∀ e s, is_flow e = false → P s → P (emit e s).
Hypothesis P_pause : ∀ s, P s → P (snd (pause s)).
Hypothesis P_resume : ∀ s, P s → P (snd (resume s)).
Hypothesis P_raw : ∀ b s, P s → P (set_raw_mode b s).
Hypothesis P_val : ∀ v s, P s → P (set_val v s).
Hypothesis P_series : ∀ done n s, P s → P (set_series done n s).
Hypothesis P_halt : ∀ s, P s → P (halt s).
Hypothesis P_add : ∀ c s, P s → P (add_listeners c s).
Hypothesis P_remove : ∀ id s, P s → P (remove_listeners id s).
Hypothesis P_update : ∀ id c c' s,
  closure_of id (data_listeners s) = Some c → cb c' = cb c →
  P s → P (update_closure id c' s).
Hypothesis P_start : ∀ i o s, P s → P (snd (start i o s)).

Lemma kept_throw s : P s → P (throw s).
Proof. intros H. apply P_halt, P_emit; auto. Qed.

Lemma kept_exit code s : P s → P (exit code s).
Proof. intros H. apply P_halt, P_emit; auto. Qed.

Lemma kept_read hidden k s : P s → P (read hidden k s).
Proof.
  intros H. destruct hidden; unfold read, readLine, readLineHidden.
  - destruct (stdin _); [apply P_add|apply kept_throw];
      apply P_resume, P_raw, P_emit; auto.
  - destruct (stdin _); [apply P_add, P_emit; auto|apply kept_throw];
      apply P_resume; auto.
Qed.

Lemma kept_log_help ls : ∀ s, P s → P (log_help ls s).
Proof.
  induction ls as [|l ls IH]; intros s H; [exact H|].
  apply (IH (emit _ s)). apply P_emit; auto.
Qed.

Lemma kept_log_invalid prop s : P s → P (log_invalid prop s).
Proof.
  intros H. unfold log_invalid.
  destruct (prop_warning prop); repeat apply P_emit; auto.
Qed.

Lemma kept_getInput prop k s : P s → P (getInput prop k s).
Proof.
  intros H. unfold getInput.
  destruct (stdout _); [|apply kept_throw, kept_log_help, H].
  apply kept_read, P_emit; [reflexivity|]. apply kept_log_help, H.
Qed.

Lemma kept_unmodelled s : P s → P (unmodelled s).
Proof. intros H. apply P_halt, P_emit; auto. Qed.

Lemma kept_invoke_rec k r s : P s → P (invoke_rec k r s).
Proof.
  intros H. destruct k as [|obj]; simpl; [apply P_emit; auto|].
  destruct r as [e|results]; [apply P_emit; auto|].
  destruct (merge obj results);
    [apply P_emit; auto|apply kept_throw, H|apply kept_unmodelled, H].
Qed.

Lemma kept_iterate series vars res k s : P s → P (iterate series vars res k s).
Proof.
  intros H. destruct vars as [|v rest]; simpl.
  - destruct (is_finished series s); [exact H|apply kept_invoke_rec, H].
  - apply kept_getInput, H.
Qed.

Lemma kept_invoke_line k : ∀ r s, P s → P (invoke_line k r s).
Proof.
  induction k as [|prop k IH|series target rest res k]; intros r s H; simpl.
  - apply P_emit; auto.
  - destruct r as [e|line]; [apply IH, H|].
    destruct (valid prop (effective prop line)).
    + apply IH, P_emit; auto.
    + apply kept_getInput, kept_log_invalid, H.
  - destruct r as [e|line]; [|apply kept_iterate, H].
    destruct (is_finished series s); [exact H|].
    apply P_series, kept_invoke_rec, H.
Qed.

Lemma kept_run_data chunk s id : P s → P (run_data chunk s id).
Proof.
  intros H. unfold run_data. destruct (halted s); [exact H|].
  destruct (closure_of id (data_listeners s)) as [c|] eqn:C; [|exact H].
  destruct (rd c).
  - unfold cooked_data.
    destruct (0 <=? indexOf_nl _).
    + apply kept_invoke_line, P_remove, P_pause, P_val, H.
    + apply (P_update id c); auto.
  - unfold hidden_data. destruct (is_terminator chunk).
    + apply kept_invoke_line, P_pause, P_emit; [reflexivity|].
      apply P_emit; [reflexivity|]. apply P_remove, P_raw, P_emit; auto.
    + destruct (is_interrupt chunk).
      * apply kept_exit, P_emit; auto.
      * apply (P_update id c); auto.
Qed.

Lemma kept_deliver ev s : P s → P (deliver ev s).
Proof.
  intros H. unfold deliver. destruct (halted s); [exact H|].
  destruct ev as [chunk|e|].
  - generalize (map fst (data_listeners s)). intros ids.
    revert s H. induction ids as [|id ids IH]; intros s H; [exact H|].
    apply IH, kept_run_data, H.
  - destruct (error_listeners s) as [|l ls]; [apply kept_throw, H|].
    generalize (l :: ls). intros ls'.
    revert s H. induction ls' as [|l' ls' IH]; intros s H; [exact H|].
    apply IH. unfold run_error. destruct (halted s); [exact H|].
    apply kept_invoke_line, H.
  - destruct (sigint_handlers s); [apply P_halt, H|].
    apply kept_exit, P_emit; auto.
Qed.

Lemma kept_get msg k s : P s → P (get msg k s).
Proof. intros H. apply kept_iterate, P_series, H. Qed.

Lemma kept_addProperties obj props s : P s → P (addProperties obj props s).
Proof.
  intros H. unfold addProperties.
  destruct (filter_undefined obj props) as [[|p ps]| |].
  - apply P_emit; auto.
  - apply kept_get, H.
  - apply kept_throw, H.
  - apply kept_unmodelled, H.
Qed.

Lemma kept_perform a s : P s → P (perform a s).
Proof.
  intros H. unfold perform. destruct (halted s); [exact H|].
  destruct a; auto using kept_deliver, kept_get, kept_getInput,
    kept_addProperties.
  - apply (kept_read false), H.
  - apply (kept_read true), H.
Qed.

Lemma kept_run acts : ∀ s, P s → P (run acts s).
Proof.
  induction acts as [|a acts IH]; intros s H; [exact H|].
  apply IH, kept_perform, H.
Qed.

End Preserved.

Lemma run_halted acts : ∀ s, halted s = true → run acts s = s.
Proof.
  induction acts as [|a acts IH]; intros s H; [reflexivity|].
  simpl. unfold perform. rewrite H. apply IH, H.
Qed.

Lemma feed_halted evs : ∀ s, halted s = true → feed evs s = s.
Proof.
  induction evs as [|ev evs IH]; intros s H; [reflexivity|].
  simpl. unfold deliver. rewrite H. apply IH, H.
Qed.

(** *** The flow of the input stream *)

Lemma flow_snoc t e : flow (t ++ [e]) = flow_step (flow t) e.
Proof. unfold flow. now rewrite fold_left_app. Qed.

Lemma flow_step_other st e : is_flow e = false → flow_step st e = st.
Proof. destruct e; simpl; intros H; try discriminate; reflexivity. Qed.

(** X1. Over any use of the module, from its loading on, [stdin.pause()]
    and [stdin.resume()] are called in strict alternation, the first call
    being a pause, and the [paused] flag tells which came last: the
    stream is never paused twice nor resumed without having been
    paused. *)
Theorem flow_alternates props acts :
  flow (trace (run acts (initial props)))
  = Some (paused (run acts (initial props))).
Proof.
  apply (kept_run (λ s, flow (trace s) = Some (paused s)));
    try (intros; simpl; assumption); try reflexivity.
  - intros e s He H. simpl. now rewrite flow_snoc, flow_step_other.
  - intros s H. unfold pause.
    destruct (negb (started s) || paused s) eqn:E; [exact H|].
    apply orb_false_iff in E as [_ E]. simpl.
    now rewrite flow_snoc, H, E.
  - intros s H. unfold resume.
    destruct (negb (started s) || negb (paused s)) eqn:E; [exact H|].
    apply orb_false_iff in E as [_ E]. apply negb_false_iff in E. simpl.
    now rewrite flow_snoc, H, E.
  - intros i o s H. unfold start. destruct (started s); exact H.
Qed.

(** *** The listeners *)

Lemma error_side_filter (f : nat → bool) l :
  error_side (List.filter (λ e, f (fst e)) l)
  = List.filter (λ e, f (fst e)) (error_side l).
Proof.
  induction l as [|[i c] l IH]; [reflexivity|]. simpl.
  destruct (f i); simpl; now rewrite IH.
Qed.

Lemma ids_filter (f : nat → bool) (l : list (nat * closure)) :
  map fst (List.filter (λ e, f (fst e)) l) = List.filter f (map fst l).
Proof.
  induction l as [|[i c] l IH]; [reflexivity|]. simpl.
  destruct (f i); simpl; now rewrite IH.
Qed.

Lemma NoDup_list_filter (f : nat → bool) l :
  NoDup l → NoDup (List.filter f l).
Proof.
  induction 1 as [|i l Hi N IH]; simpl; [constructor|].
  destruct (f i); [|exact IH]. constructor; [|exact IH].
  intros H. apply Hi. apply list_elem_of_In in H.
  apply List.filter_In in H as [H _]. now apply list_elem_of_In.
Qed.

Lemma ids_update id c' (l : list (nat * closure)) :
  map fst (map (λ e, if Nat.eqb (fst e) id then (id, c') else e) l)
  = map fst l.
Proof.
  induction l as [|[i c] l IH]; [reflexivity|]. simpl. rewrite IH.
  destruct (Nat.eqb i id) eqn:E; [|reflexivity].
  apply Nat.eqb_eq in E. now subst.
Qed.

Lemma error_side_update id c c' l :
  NoDup (map fst l) →
  closure_of id l = Some c → cb c' = cb c →
  error_side (map (λ e, if Nat.eqb (fst e) id then (id, c') else e) l)
  = error_side l.
Proof.
  intros N C E. induction l as [|[i x] l IH]; [reflexivity|].
  simpl in *. inversion N as [|? ? Hi N']; subst.
  destruct (Nat.eqb i id) eqn:Ei.
  - apply Nat.eqb_eq in Ei. subst i. injection C as ->. simpl.
    rewrite E. f_equal.
    clear -Hi. induction l as [|[j y] l IH]; [reflexivity|]. simpl.
    destruct (Nat.eqb j id) eqn:Ej.
    + apply Nat.eqb_eq in Ej. subst j. exfalso. apply Hi. now left.
    + f_equal. apply IH. intros H. apply Hi. now right.
  - simpl. f_equal. now apply IH.
Qed.

(** X2. Over any use of the module, every read that is pending has both
    its listeners on the input stream, the ['error'] listener being the
    read's own callback, and no listener is left without its partner;
    closure identities are never reused. *)
Theorem listeners_paired props acts : paired (run acts (initial props)).
Proof.
  apply (kept_run paired).
  - intros e s _ [? ? ?]. constructor; assumption.
  - intros s [? ? ?]. unfold pause.
    destruct (negb (started s) || paused s); constructor; assumption.
  - intros s [? ? ?]. unfold resume.
    destruct (negb (started s) || negb (paused s)); constructor; assumption.
  - intros b s [? ? ?]. constructor; assumption.
  - intros v s [? ? ?]. constructor; assumption.
  - intros done n s [? ? ?]. constructor; assumption.
  - intros s [? ? ?]. constructor; assumption.
  - intros c s [E N F]. constructor; simpl.
    + unfold error_side. rewrite map_app. simpl. now rewrite E.
    + rewrite map_app. simpl. apply NoDup_app. split; [exact N|].
      split; [|repeat constructor; intros H; inversion H].
      intros i Hi Hn. apply list_elem_of_singleton in Hn. subst i.
      apply list_elem_of_fmap in Hi as ([j x] & Hj & Hx).
      rewrite Forall_forall in F. specialize (F _ Hx). simpl in *. lia.
    + apply Forall_app. split.
      * eapply Forall_impl; [exact F|]. simpl. intros; lia.
      * constructor; [simpl; lia|constructor].
  - intros id s [E N F]. constructor; simpl.
    + rewrite E. symmetry.
      apply (error_side_filter (λ i, negb (Nat.eqb i id))).
    + rewrite (ids_filter (λ i, negb (Nat.eqb i id))).
      now apply NoDup_list_filter.
    + rewrite Forall_forall in *. intros x Hx. apply F.
      apply list_elem_of_In in Hx. apply List.filter_In in Hx as [Hx _].
      now apply list_elem_of_In.
  - intros id c c' s C Hc [E N F]. constructor; simpl.
    + rewrite E. symmetry. now apply (error_side_update id c).
    + now rewrite ids_update.
    + rewrite Forall_forall in *. intros x Hx.
      apply list_elem_of_In in Hx. apply List.in_map_iff in Hx as ([j y] & <- & Hy).
      simpl. specialize (F (j, y)). simpl in F.
      destruct (Nat.eqb j id) eqn:Ej; simpl.
      * apply Nat.eqb_eq in Ej. subst j. apply F. now apply list_elem_of_In.
      * apply F. now apply list_elem_of_In.
  - intros i o s [? ? ?]. unfold start.
    destruct (started s); constructor; assumption.
  - constructor; simpl; constructor.
Qed.

(** *** Interrupts *)

(** X3. Once the session is started, SIGINT writes a newline and ends
    the process with status 1, whatever was going on; no callback is
    called, and nothing the program or the stream does afterwards has any
    effect. *)
Theorem sigint_exits props acts :
  let s := run acts (initial props) in
  started s = true →
  halted s = false →
  deliver Sigint s = exit 1 (emit (StdoutWrite [(Plain, nl)]) s)
  ∧ calls (trace (deliver Sigint s)) = calls (trace s)
  ∧ ∀ acts', run acts' (deliver Sigint s) = deliver Sigint s.
Proof.
  intros s Hs Hh.
  assert (K : started s = true → sigint_handlers s ≠ O).
  { unfold s.
    apply (kept_run (λ s, started s = true → sigint_handlers s ≠ O));
      try (intros; simpl in *; auto; fail).
    - intros s0 H. unfold pause.
      destruct (negb (started s0) || paused s0); exact H.
    - intros s0 H. unfold resume.
      destruct (negb (started s0) || negb (paused s0)); exact H.
    - intros i o s0 H. unfold start.
      destruct (started s0) eqn:E; simpl; [now rewrite E|discriminate]. }
  assert (E : deliver Sigint s = exit 1 (emit (StdoutWrite [(Plain, nl)]) s)).
  { unfold deliver. rewrite Hh.
    destruct (sigint_handlers s); [now destruct (K Hs)|reflexivity]. }
  split; [exact E|]. split.
  - rewrite E. simpl. rewrite !calls_app. simpl. now rewrite !app_nil_r.
  - intros acts'. apply run_halted. now rewrite E.
Qed.

Lemma sigint_exits_witness :
  let s := run [Start None None; GetInput (FStr "name"); Emit (Data "pa")]
             (initial ∅) in
  deliver Sigint s = exit 1 (emit (StdoutWrite [(Plain, nl)]) s).
Proof.
  refine (proj1 (sigint_exits ∅ [Start None None; GetInput (FStr "name");
                                 Emit (Data "pa")] _ _));
    vm_compute; reflexivity.
Defined.

(** *** Pausing and resuming *)

(** X4. [pause] and [resume] are idempotent: called a second time in a
    row, each changes nothing and returns [undefined]. *)
Theorem pause_resume_idempotent s :
  pause (snd (pause s)) = (RUndefined, snd (pause s))
  ∧ resume (snd (resume s)) = (RUndefined, snd (resume s)).
Proof.
  unfold pause, resume.
  destruct (started s) eqn:Hs, (paused s) eqn:Hp; simpl;
    rewrite ?Hs, ?Hp; simpl; auto.
Qed.

(** X5. On a started session whose input is flowing, [pause] followed by
    [resume] calls [stdin.pause()], then [stdin.resume()], both return the
    module, and the session is otherwise as before. *)
Theorem pause_then_resume s :
  started s = true →
  paused s = false →
  fst (pause s) = RBeseech
  ∧ resume (snd (pause s))
    = (RBeseech, emit StdinResume (emit StdinPause s)).
Proof.
  intros Hs Hp. unfold pause, resume. rewrite Hs, Hp. simpl. rewrite Hs.
  simpl. split; [reflexivity|]. f_equal.
  destruct s. simpl in *. now subst.
Qed.

Lemma pause_then_resume_witness :
  resume (snd (pause (session ∅)))
  = (RBeseech, emit StdinResume (emit StdinPause (session ∅))).
Proof.
  refine (proj2 (pause_then_resume (session ∅) _ _)); reflexivity.
Defined.

(** *** Strings *)

Lemma append_cons c s t : String c s ++ t = String c (s ++ t).
Proof. reflexivity. Qed.

Lemma append_nil_r s : s ++ "" = s.
Proof.
  induction s as [|c s IH]; [reflexivity|]. now rewrite append_cons, IH.
Qed.

Lemma append_assoc s t u : (s ++ t) ++ u = s ++ t ++ u.
Proof.
  induction s as [|c s IH]; [reflexivity|]. now rewrite !append_cons, IH.
Qed.

Lemma remove_cr_app s t : remove_cr (s ++ t) = remove_cr s ++ remove_cr t.
Proof.
  induction s as [|c s IH]; [reflexivity|]. rewrite append_cons. simpl.
  destruct (Ascii.eqb c CR); [exact IH|]. now rewrite append_cons, IH.
Qed.

Lemma remove_cr_idem s : remove_cr (remove_cr s) = remove_cr s.
Proof.
  induction s as [|c s IH]; [reflexivity|]. simpl.
  destruct (Ascii.eqb c CR) eqn:E; [exact IH|]. simpl. now rewrite E, IH.
Qed.

Lemma has_cr_remove_cr s : has_cr (remove_cr s) = false.
Proof.
  induction s as [|c s IH]; [reflexivity|]. simpl.
  destruct (Ascii.eqb c CR) eqn:E; [exact IH|]. simpl. now rewrite E.
Qed.

Lemma indexOf_nl_least s : -1 <= indexOf_nl s.
Proof.
  induction s as [|c s IH]; simpl; [lia|].
  destruct (Ascii.eqb c LF); [lia|].
  destruct (indexOf_nl s <? 0) eqn:E; lia.
Qed.

Lemma has_nl_cons c s :
  (0 <=? indexOf_nl (String c s)) = Ascii.eqb c LF || (0 <=? indexOf_nl s).
Proof.
  simpl. destruct (Ascii.eqb c LF); [reflexivity|]. simpl.
  pose proof (indexOf_nl_least s).
  destruct (indexOf_nl s <? 0) eqn:E.
  - apply Z.ltb_lt in E. symmetry. apply Z.leb_gt. lia.
  - apply Z.ltb_ge in E. transitivity true; [|symmetry];
      apply Z.leb_le; lia.
Qed.

Lemma has_nl_app s t :
  (0 <=? indexOf_nl (s ++ t))
  = (0 <=? indexOf_nl s) || (0 <=? indexOf_nl t).
Proof.
  induction s as [|c s IH]; [reflexivity|].
  rewrite append_cons, !has_nl_cons, IH. now rewrite orb_assoc.
Qed.

Lemma has_nl_remove_cr s :
  (0 <=? indexOf_nl (remove_cr s)) = (0 <=? indexOf_nl s).
Proof.
  induction s as [|c s IH]; [reflexivity|]. simpl remove_cr.
  destruct (Ascii.eqb c CR) eqn:E.
  - rewrite IH, has_nl_cons. apply Ascii.eqb_eq in E. now subst.
  - now rewrite !has_nl_cons, IH.
Qed.

Lemma trim_start_strip s : trim_start (strip_leading_nl s) = trim_start s.
Proof.
  induction s as [|c s IH]; [reflexivity|]. simpl.
  destruct (Ascii.eqb c LF) eqn:E; [|reflexivity].
  apply Ascii.eqb_eq in E. subst c. exact IH.
Qed.

Lemma trim_end_idem s : trim_end (trim_end s) = trim_end s.
Proof.
  induction s as [|c s IH]; [reflexivity|]. simpl.
  destruct (is_space c && is_empty (trim_end s)) eqn:E; [reflexivity|].
  simpl. now rewrite IH, E.
Qed.

Lemma trim_start_clean s :
  match trim_start s with
  | "" => True
  | String c _ => is_space c = false
  end.
Proof.
  induction s as [|c s IH]; simpl; [exact I|].
  destruct (is_space c) eqn:E; [exact IH|exact E].
Qed.

Lemma trim_idem s : trim (trim s) = trim s.
Proof.
  unfold trim. pose proof (trim_start_clean s) as C.
  destruct (trim_start s) as [|c r]; [reflexivity|].
  simpl. rewrite C. simpl. rewrite C. simpl. rewrite C. simpl.
  now rewrite trim_end_idem.
Qed.

Lemma has_cr_trim_start s : has_cr s = false → has_cr (trim_start s) = false.
Proof.
  induction s as [|c s IH]; [reflexivity|]. simpl. intros H.
  apply orb_false_iff in H as [Hc Hs].
  destruct (is_space c); [now apply IH|]. simpl. now rewrite Hc, Hs.
Qed.

Lemma has_cr_trim_end s : has_cr s = false → has_cr (trim_end s) = false.
Proof.
  induction s as [|c s IH]; [reflexivity|]. simpl. intros H.
  apply orb_false_iff in H as [Hc Hs].
  destruct (is_space c && is_empty (trim_end s)); [reflexivity|].
  simpl. now rewrite Hc, IH.
Qed.

Lemma has_cr_trim s : has_cr s = false → has_cr (trim s) = false.
Proof. intros H. now apply has_cr_trim_end, has_cr_trim_start. Qed.

(** *** What the readers hand over *)

(** The cooked reader's line is the whole pending text, without carriage
    returns, trimmed: removing the leading line feeds (line 256) changes
    nothing of it. *)
Lemma resolves_cooked v chunk line :
  resolves false v chunk = Some line →
  line = trim (remove_cr (v ++ chunk)).
Proof.
  unfold resolves.
  destruct (0 <=? indexOf_nl (remove_cr (v ++ chunk))); [|discriminate].
  intros [= <-].
  destruct (String.eqb (remove_cr (v ++ chunk)) nl); [reflexivity|].
  unfold trim. now rewrite trim_start_strip.
Qed.

Lemma submitted_cooked cs c : ∀ v,
  (0 <=? indexOf_nl v) = false →
  Forall (λ x, (0 <=? indexOf_nl x) = false) cs →
  (0 <=? indexOf_nl c) = true →
  submitted false v (map Data (cs ++ [c]))
  = Some (trim (remove_cr (v ++ joined (cs ++ [c])))).
Proof.
  induction cs as [|x cs IH]; intros v Hv F Hc; simpl.
  - unfold absorbs, resolves.
    rewrite has_nl_remove_cr, has_nl_app, Hv, Hc. simpl.
    rewrite append_nil_r.
    destruct (String.eqb (remove_cr (v ++ c)) nl); [reflexivity|].
    unfold trim. now rewrite trim_start_strip.
  - inversion F as [|? ? Hx F']; subst. unfold absorbs.
    rewrite has_nl_remove_cr, has_nl_app, Hv, Hx. simpl.
    rewrite IH; [|now rewrite has_nl_remove_cr, has_nl_app, Hv, Hx
                 |exact F'|exact Hc].
    now rewrite <- append_assoc, (remove_cr_app (remove_cr _)),
      remove_cr_idem, <- remove_cr_app.
Qed.

Lemma reader_calls hidden evs line s :
  idle s →
  submitted hidden "" evs = Some line →
  calls (trace (feed evs (read hidden KUserLine s)))
  = (calls (trace s) ++ [[ANull; AStr line]])%list.
Proof.
  intros I S. destruct (read_listening hidden KUserLine s I) as [L T].
  destruct (feed_submitted _ _ _ _ _ _ _ L S) as (s1 & F & _ & T1).
  rewrite F. simpl. rewrite calls_app.
  rewrite (shows_calls _ _ _ (shows_trans _ _ _ _ _ T T1)). simpl.
  now rewrite app_nil_r.
Qed.

(** X6. The cooked reader does not depend on how the stream cuts the
    text: when the line feed comes with the last of several chunks, the
    callback receives, once, all the chunks joined, without their carriage
    returns, trimmed. *)
Theorem readLine_joins_chunks s cs c :
  idle s →
  Forall (λ x, (0 <=? indexOf_nl x) = false) cs →
  (0 <=? indexOf_nl c) = true →
  calls (trace (feed (map Data (cs ++ [c])) (readLine KUserLine s)))
  = (calls (trace s)
     ++ [[ANull; AStr (trim (remove_cr (joined (cs ++ [c]))))]])%list.
Proof.
  intros I F Hc.
  apply (reader_calls false _ _ s I).
  now apply (submitted_cooked cs c "").
Qed.

Lemma readLine_joins_chunks_witness :
  calls (trace (feed (map Data (["lo"; "cal" ++ chr CR] ++ ["host " ++ nl]))
                  (readLine KUserLine (session ∅))))
  = [[ANull; AStr "localhost"]].
Proof.
  refine (readLine_joins_chunks (session ∅) ["lo"; "cal" ++ chr CR]
            ("host " ++ nl) _ _ _).
  - by_computation.
  - repeat constructor.
  - reflexivity.
Defined.

Lemma absorbed_hidden cs : ∀ v,
  Forall (λ x, is_terminator x = false ∧ is_interrupt x = false) cs →
  absorbed true v (map Data cs) = Some (v ++ joined cs).
Proof.
  induction cs as [|x cs IH]; intros v F; simpl.
  - now rewrite append_nil_r.
  - inversion F as [|? ? [Ht Hi] F']; subst. unfold absorbs.
    rewrite Ht, Hi. simpl. rewrite (IH _ F'). now rewrite append_assoc.
Qed.

Lemma submitted_snoc hidden evs chunk : ∀ v v',
  absorbed hidden v evs = Some v' →
  absorbs hidden v' chunk = None →
  submitted hidden v (evs ++ [Data chunk]) = resolves hidden v' chunk.
Proof.
  induction evs as [|ev evs IH]; intros v v' A N; simpl in *.
  - injection A as <-. now rewrite N.
  - destruct ev as [x| |]; try discriminate.
    destruct (absorbs hidden v x) as [v1|]; [|discriminate].
    now apply IH.
Qed.

(** X7. The hidden reader keeps every chunk that is neither a terminator
    nor an interrupt: on the terminator the callback receives, once, the
    chunks joined in the order they came, trimmed. *)
Theorem readLineHidden_joins_chunks s cs t :
  idle s →
  Forall (λ x, is_terminator x = false ∧ is_interrupt x = false) cs →
  is_terminator t = true →
  calls (trace (feed (map Data (cs ++ [t])) (readLineHidden KUserLine s)))
  = (calls (trace s) ++ [[ANull; AStr (trim (joined cs))]])%list.
Proof.
  intros I F Ht.
  apply (reader_calls true _ _ s I).
  rewrite map_app. simpl.
  rewrite (submitted_snoc true _ t "" (joined cs)).
  - unfold resolves. now rewrite Ht.
  - now apply (absorbed_hidden cs "").
  - unfold absorbs. now rewrite Ht.
Qed.

Lemma readLineHidden_joins_chunks_witness :
  calls (trace (feed (map Data (["s"; "3"; "cr"; "et"] ++ [chr EOT]))
                  (readLineHidden KUserLine (session ∅))))
  = [[ANull; AStr "s3cret"]].
Proof.
  refine (readLineHidden_joins_chunks (session ∅) ["s"; "3"; "cr"; "et"]
            (chr EOT) _ _ _).
  - by_computation.
  - repeat constructor.
  - reflexivity.
Defined.

Lemma submitted_resolves hidden evs line : ∀ v,
  submitted hidden v evs = Some line →
  ∃ v' chunk, resolves hidden v' chunk = Some line.
Proof.
  induction evs as [|ev evs IH]; intros v S; simpl in S; [discriminate|].
  destruct ev as [x| |]; try discriminate.
  destruct (absorbs hidden v x) as [v1|]; [now apply (IH v1)|].
  destruct evs; [eauto|discriminate].
Qed.

(** X8. Whatever line a reader hands to its callback has no white space
    at either end, and the cooked reader's line holds no carriage
    return. *)
Theorem reader_line_is_clean hidden evs line s :
  idle s →
  submitted hidden "" evs = Some line →
  calls (trace (feed evs (read hidden KUserLine s)))
  = (calls (trace s) ++ [[ANull; AStr line]])%list
  ∧ trim line = line
  ∧ (hidden = false → has_cr line = false).
Proof.
  intros I S. split; [now apply reader_calls|].
  destruct (submitted_resolves _ _ _ _ S) as (v & chunk & R).
  destruct hidden.
  - split; [|discriminate]. unfold resolves in R.
    destruct (is_terminator chunk); [|discriminate].
    injection R as <-. apply trim_idem.
  - apply resolves_cooked in R. subst line.
    split; [apply trim_idem|]. intros _.
    apply has_cr_trim, has_cr_remove_cr.
Qed.

Lemma reader_line_is_clean_witness :
  calls (trace (feed [Data ("  a b " ++ chr CR ++ nl)]
                  (read false KUserLine (session ∅))))
  = [[ANull; AStr "a b"]]
  ∧ trim "a b" = "a b"
  ∧ (false = false → has_cr "a b" = false).
Proof.
  refine (reader_line_is_clean false [Data ("  a b " ++ chr CR ++ nl)]
            "a b" (session ∅) _ _).
  - by_computation.
  - reflexivity.
Defined.

(** *** The hidden reader's interrupt *)

Lemma interrupt_not_terminator c :
  is_interrupt c = true → is_terminator c = false.
Proof.
  unfold is_interrupt. intros H. apply orb_true_iff in H as [H|H];
    apply String.eqb_eq in H; subst; reflexivity.
Qed.

Lemma feed_absorbed_raw hidden k id evs : ∀ v v' s,
  listening s id
    {| rd := reader_of hidden; value_ := v; buffer_ := ""; cb := k |} →
  absorbed hidden v evs = Some v' →
  raw_mode (feed evs s) = raw_mode s.
Proof.
  induction evs as [|ev evs IH]; intros v v' s L A; simpl in A;
    [reflexivity|].
  destruct ev as [chunk| |]; try discriminate.
  destruct (absorbs hidden v chunk) as [v1|] eqn:E; [|discriminate].
  destruct (deliver_absorbs _ _ _ _ _ _ _ L E) as (L1 & _ & _).
  change (feed (Data chunk :: evs) s)
    with (feed evs (deliver (Data chunk) s)).
  rewrite (IH _ _ _ L1 A), (deliver_data_listening _ _ _ _ L).
  unfold absorbs in E. destruct hidden; simpl in *.
  - unfold hidden_data.
    destruct (is_terminator chunk); [discriminate|].
    destruct (is_interrupt chunk); [discriminate|reflexivity].
  - unfold cooked_data. simpl. change ("" +:+ chunk) with chunk.
    destruct (0 <=? indexOf_nl (remove_cr (v ++ chunk)));
      [discriminate|reflexivity].
Qed.

(** X9. When the interrupt character or NUL arrives during a hidden
    read, the reader writes a newline and ends the process with status 1.
    It does not leave raw mode, it calls nobody, and nothing that comes
    afterwards has any effect. *)
Theorem readLineHidden_interrupt k s evs v c :
  idle s →
  absorbed true "" evs = Some v →
  is_interrupt c = true →
  let s1 := readLineHidden k s in
  let s2 := feed (evs ++ [Data c]) s1 in
  trace s2 = (trace s1 ++ [StdoutWrite [(Plain, nl)]; Exit 1])%list
  ∧ raw_mode s2 = true
  ∧ calls (trace s2) = calls (trace s)
  ∧ ∀ acts, run acts s2 = s2.
Proof.
  intros I A Hc s1 s2.
  destruct (read_listening true k s I) as [L T].
  change (read true k s) with s1 in L, T.
  destruct (feed_absorbed _ _ _ _ _ _ _ L A) as (L1 & T1 & _).
  pose proof (feed_absorbed_raw _ _ _ _ _ _ _ L A) as R1.
  assert (E : s2 = exit 1 (emit (StdoutWrite [(Plain, nl)]) (feed evs s1))).
  { unfold s2. rewrite feed_app. simpl.
    rewrite (deliver_data_listening _ _ _ _ L1). simpl.
    unfold hidden_data.
    now rewrite (interrupt_not_terminator _ Hc), Hc. }
  assert (R : raw_mode s1 = true).
  { unfold s1, readLineHidden, resume. simpl.
    destruct I as [_ Hs [i Hi] _ _ _ _]. rewrite Hs. simpl.
    destruct (paused s); simpl; rewrite Hi; reflexivity. }
  rewrite E. simpl. rewrite T1, R1, R, <- app_assoc. simpl.
  split; [reflexivity|]. split; [reflexivity|]. split.
  - rewrite calls_app, (shows_calls _ _ _ T). simpl.
    now rewrite !app_nil_r.
  - intros acts. now apply run_halted.
Qed.

Lemma readLineHidden_interrupt_witness :
  trace (feed ([Data "p"; Data "w"] ++ [Data (chr ETX)])
           (readLineHidden KUserLine (session ∅)))
  = [SetRawMode true; StdoutWrite [(Plain, nl)]; Exit 1].
Proof.
  refine (proj1 (readLineHidden_interrupt KUserLine (session ∅)
                   [Data "p"; Data "w"] "pw" (chr ETX) _ _ _)).
  - by_computation.
  - reflexivity.
  - reflexivity.
Defined.

(** *** Before [start] *)

Lemma log_help_frame ls : ∀ s,
  stdout (log_help ls s) = stdout s
  ∧ stdin (log_help ls s) = stdin s
  ∧ started (log_help ls s) = started s
  ∧ data_listeners (log_help ls s) = data_listeners s
  ∧ error_listeners (log_help ls s) = error_listeners s
  ∧ calls (trace (log_help ls s)) = calls (trace s).
Proof.
  induction ls as [|l ls IH]; intros s; [now repeat split|].
  destruct (IH (emit (Log Help [(Plain, l)]) s)) as (? & ? & ? & ? & ? & C).
  repeat split; try assumption.
  change (log_help (l :: ls) s)
    with (log_help ls (emit (Log Help [(Plain, l)]) s)).
  rewrite C. simpl. rewrite calls_app. simpl. now rewrite app_nil_r.
Qed.

(** X10. On a session that has not been started no stream is bound, and
    [readLine], [readLineHidden], [getInput] and [get] over at least one
    field end in a TypeError: no listener is registered and no callback is
    called.  [readLineHidden] has switched the terminal to raw mode by
    then. *)
Theorem reading_before_start_throws s :
  started s = false →
  stdin s = None →
  stdout s = None →
  let failed s' :=
    last (trace s') = Some Throw
    ∧ calls (trace s') = calls (trace s)
    ∧ data_listeners s' = data_listeners s
    ∧ error_listeners s' = error_listeners s in
  (∀ k, failed (readLine k s))
  ∧ (∀ k, failed (readLineHidden k s) ∧ raw_mode (readLineHidden k s) = true)
  ∧ (∀ prop k, failed (getInput prop k s))
  ∧ (∀ msg k, vars_of msg ≠ [] → failed (get msg k s)).
Proof.
  intros Hs Hi Ho failed.
  assert (G : ∀ prop k s0,
            stdout s0 = None → calls (trace s0) = calls (trace s) →
            data_listeners s0 = data_listeners s →
            error_listeners s0 = error_listeners s →
            failed (getInput prop k s0)).
  { intros prop k s0 Ho0 C D E. unfold getInput.
    destruct (log_help_frame (prop_help prop) s0) as (O & _ & _ & D' & E' & C').
    rewrite O, Ho0. unfold failed. simpl.
    rewrite last_snoc, calls_app, C', C, D', E', D, E. simpl.
    now rewrite app_nil_r. }
  split; [|split; [|split]].
  - intros k. unfold readLine, resume. rewrite Hs. simpl. rewrite Hi.
    unfold failed. simpl. rewrite last_snoc, calls_app. simpl.
    now rewrite app_nil_r.
  - intros k. unfold readLineHidden, resume. simpl. rewrite Hs. simpl.
    rewrite Hi. unfold failed. simpl.
    rewrite last_snoc, !calls_app. simpl. now rewrite !app_nil_r.
  - intros prop k. now apply G.
  - intros msg k Hm. unfold get.
    destruct (vars_of msg) as [|v vs]; [now destruct Hm|]. simpl.
    now apply G.
Qed.

Lemma reading_before_start_throws_witness :
  last (trace (readLineHidden KUserLine (initial ∅))) = Some Throw
  ∧ raw_mode (readLineHidden KUserLine (initial ∅)) = true.
Proof.
  pose proof (reading_before_start_throws (initial ∅)) as W.
  destruct W as (_ & W & _); [reflexivity|reflexivity|reflexivity|].
  destruct (W KUserLine) as ((T & _) & R). now split.
Defined.

(** *** Writing into the target *)

Lemma assoc_set_same key props :
  has_own key props = true →
  assoc_set key (assoc_get key props) props = props.
Proof.
  unfold has_own.
  induction props as [|[k w] props IH]; simpl; intros H; [discriminate|].
  destruct (String.eqb k key) eqn:E; [reflexivity|]. simpl in H.
  now rewrite IH.
Qed.

Lemma truthy_own key props :
  truthy_value (assoc_get key props) = true → has_own key props = true.
Proof.
  intros T. destruct (has_own key props) eqn:O; [reflexivity|].
  now rewrite (assoc_get_not_own _ _ O) in T.
Qed.

(** X11. When a segment of the path meets a true boolean or a non-zero
    number on the target, the answer is lost.  With one segment left the
    assignment is made on the primitive and changes nothing.  With more
    than one left the next segment decides: under a name the primitive
    inherits the write goes on inside a built-in object, under any other
    name [putNested] ends in a TypeError. *)
Theorem putNested_below_primitive props key k2 v :
  is_plain (assoc_get key props) = true →
  truthy_value (assoc_get key props) = true →
  putNested (VObj props) [key; k2] v = Done (VObj props)
  ∧ ∀ k3 rest,
      putNested (VObj props) (key :: k2 :: k3 :: rest) v
      = if inherits (match assoc_get key props with
                     | VNum _ => number_members
                     | _ => object_members
                     end) k2
        then Native else TypeError.
Proof.
  intros Hp Ht. pose proof (truthy_own _ _ Ht) as O. split.
  - rewrite putNested_descend. cbn [prop_get]. rewrite O.
    cbn [mbind outcome_bind]. rewrite Ht.
    cbn [mbind outcome_bind prop_get]. rewrite O.
    cbn [mbind outcome_bind putNested].
    rewrite prop_set_primitive
      by (destruct (assoc_get key props); try discriminate; exact I).
    cbn [mbind outcome_bind prop_set]. rewrite O, andb_false_r.
    now rewrite assoc_set_same.
  - intros k3 rest. rewrite putNested_descend. cbn [prop_get]. rewrite O.
    cbn [mbind outcome_bind]. rewrite Ht.
    cbn [mbind outcome_bind prop_get]. rewrite O.
    cbn [mbind outcome_bind]. rewrite putNested_descend.
    destruct (assoc_get key props) as [| |b|n| | |]; try discriminate;
      cbn [prop_get mbind outcome_bind].
    + destruct (inherits object_members k2) eqn:E;
        cbn [truthy_value mbind outcome_bind prop_get prop_set];
        rewrite ?E; cbn [mbind outcome_bind].
      * now rewrite putNested_native.
      * now rewrite putNested_undefined.
    + destruct (inherits number_members k2) eqn:E;
        cbn [truthy_value mbind outcome_bind prop_get prop_set];
        rewrite ?E; cbn [mbind outcome_bind].
      * now rewrite putNested_native.
      * now rewrite putNested_undefined.
Qed.

Lemma putNested_below_primitive_witness :
  putNested (VObj [("port", VNum 5432)]) ["port"; "max"] (VStr "9")
  = Done (VObj [("port", VNum 5432)])
  ∧ putNested (VObj [("port", VNum 5432)]) ["port"; "max"; "x"] (VStr "9")
    = TypeError
  ∧ putNested (VObj [("port", VNum 5432)]) ["port"; "constructor"; "x"]
              (VStr "9")
    = Native.
Proof.
  split; [|split].
  - refine (proj1 (putNested_below_primitive [("port", VNum 5432)] "port"
                     "max" (VStr "9") _ _)); reflexivity.
  - refine (proj2 (putNested_below_primitive [("port", VNum 5432)] "port"
                     "max" (VStr "9") _ _) "x" []); reflexivity.
  - refine (proj2 (putNested_below_primitive [("port", VNum 5432)] "port"
                     "constructor" (VStr "9") _ _) "x" []); reflexivity.
Defined.

(** X12. When [putNested] can follow the path down the own properties of
    the target (every segment before the last names an object, or a falsy
    value, or nothing the target has or inherits, and the last segment is
    not the inherited [__proto__]), it succeeds: the value can be read
    back along the path, and every key before the last holds an
    object. *)
Theorem putNested_round_trip path obj v :
  writable obj path = true →
  ∃ obj', putNested obj path v = Done obj'
          ∧ lookup_path obj' path = Some v
          ∧ ∀ q, proper_prefix q path = true → object_at obj' q = true.
Proof.
  intros W. destruct (putNested_writable _ _ v W) as (obj' & P & L).
  exists obj'. split; [exact P|]. split; [exact L|].
  intros q D. exact (lookup_prefix_object _ _ _ _ L D).
Qed.

Lemma putNested_round_trip_witness :
  ∃ obj',
    putNested (VObj [("db", VNull)]) ["db"; "conn"; "host"] (VStr "h")
    = Done obj'
    ∧ lookup_path obj' ["db"; "conn"; "host"] = Some (VStr "h")
    ∧ ∀ q, proper_prefix q ["db"; "conn"; "host"] = true →
           object_at obj' q = true.
Proof.
  refine (putNested_round_trip ["db"; "conn"; "host"]
            (VObj [("db", VNull)]) (VStr "h") _).
  reflexivity.
Defined.

Lemma split_dot_aux_dotless s : ∀ cur,
  dotless s = true → split_dot_aux cur s = [cur ++ s].
Proof.
  induction s as [|c s IH]; intros cur H; simpl in *.
  - now rewrite append_nil_r.
  - apply andb_true_iff in H as [Hc Hs]. apply negb_true_iff in Hc.
    rewrite Hc, (IH _ Hs). now rewrite append_assoc.
Qed.

Lemma split_dot_dotless s : dotless s = true → split_dot s = [s].
Proof. intros H. unfold split_dot. now rewrite split_dot_aux_dotless. Qed.

Lemma merge_keys_flat results ks : ∀ props,
  Forall (λ key, dotless key = true) ks →
  ∃ props',
    merge_keys (VObj props) ks results = Done (VObj props')
    ∧ (∀ key, In key ks → key ≠ "__proto__" →
              assoc_get key props' = record_value key results)
    ∧ (∀ key, ¬ In key ks → assoc_get key props' = assoc_get key props).
Proof.
  induction ks as [|k ks IH]; intros props F.
  - exists props. split; [reflexivity|]. split; [intros ? []|reflexivity].
  - inversion F as [|? ? Hd F']; subst.
    assert (S : ∃ props1,
              putNested (VObj props) (split_dot k) (record_value k results)
              = Done (VObj props1)
              ∧ (k ≠ "__proto__" →
                 assoc_get k props1 = record_value k results)
              ∧ (∀ key, key ≠ k → assoc_get key props1 = assoc_get key props)).
    { rewrite (split_dot_dotless _ Hd). simpl putNested. cbn [prop_set].
      destruct (String.eqb k "__proto__" && negb (has_own k props)) eqn:E.
      - exists props. apply andb_true_iff in E as [E _].
        apply String.eqb_eq in E.
        split; [|split; [now intros H|reflexivity]].
        unfold record_value. now destruct (record_get k results).
      - exists (assoc_set k (record_value k results) props).
        split; [reflexivity|]. split; [intros _; apply assoc_get_set_eq|].
        intros key H. apply assoc_get_set_ne.
        apply String.eqb_neq. congruence. }
    destruct S as (props1 & P & S1 & S2).
    destruct (IH props1 F') as (props' & M & K & R).
    exists props'. simpl. rewrite P. cbn [mbind outcome_bind].
    split; [exact M|]. split.
    + intros key [->|Hin] N; [|now apply K].
      destruct (in_dec String.string_dec key ks) as [Hin|Hout];
        [now apply K|].
      rewrite (R _ Hout). now apply S1.
    + intros key H. rewrite R by (intros H'; apply H; now right).
      apply S2. intros ->. apply H. now left.
Qed.

(** X13. For a record of distinct names without dots, the merge step
    succeeds on any target object: afterwards every name holds its
    answer, the name [__proto__] apart, and every other key of the target
    holds what it held. *)
Theorem merge_flat results : ∀ props,
  NoDup (map fst results) →
  Forall (λ kv, dotless (fst kv) = true) results →
  ∃ props',
    merge (VObj props) results = Done (VObj props')
    ∧ (∀ key line, In (key, line) results → key ≠ "__proto__" →
                   assoc_get key props' = VStr line)
    ∧ (∀ key, ¬ In key (map fst results) →
              assoc_get key props' = assoc_get key props).
Proof.
  intros props N F.
  destruct (merge_keys_flat results (Object_keys results) props
              (Object_keys_Forall (λ key, dotless key = true) _ F))
    as (props' & M & K & R).
  exists props'. split; [exact M|]. split.
  - intros key line Hin Hp. rewrite <- (record_value_In _ _ _ N Hin).
    apply K; [|exact Hp]. apply Object_keys_In.
    now apply (in_map fst _ (key, line)).
  - intros key H. apply R. intros H'. apply H. now apply Object_keys_In.
Qed.

Lemma merge_flat_witness :
  ∃ props',
    merge (VObj [("user", VStr "me")]) [("host", "h"); ("7", "1")]
    = Done (VObj props')
    ∧ (∀ key line, In (key, line) [("host", "h"); ("7", "1")] →
                   key ≠ "__proto__" →
                   assoc_get key props' = VStr line)
    ∧ (∀ key, ¬ In key (map fst [("host", "h"); ("7", "1")]) →
              assoc_get key props' = assoc_get key [("user", VStr "me")]).
Proof.
  refine (merge_flat [("host", "h"); ("7", "1")] [("user", VStr "me")]
            _ _).
  - apply (bool_decide_unpack _). vm_compute. reflexivity.
  - repeat constructor.
Defined.

(** *** The record and the names *)

Lemma record_put_keys key line res : ∀ x,
  x ∈ map fst (record_put key line res) ↔ x = key ∨ x ∈ map fst res.
Proof.
  induction res as [|[k l] res IH]; intros x; simpl.
  - rewrite list_elem_of_singleton. split; [auto|].
    intros [H|H]; [exact H|]. inversion H.
  - destruct (String.eqb k key) eqn:E; simpl.
    + apply String.eqb_eq in E. subst k. rewrite !elem_of_cons. tauto.
    + rewrite !elem_of_cons, IH. tauto.
Qed.

Lemma record_put_nodup key line res :
  NoDup (map fst res) → NoDup (map fst (record_put key line res)).
Proof.
  induction res as [|[k l] res IH]; simpl; intros N.
  - repeat constructor. intros H. inversion H.
  - inversion N as [|? ? Hk N']; subst.
    destruct (String.eqb k key) eqn:E; simpl; [now constructor|].
    constructor; [|now apply IH].
    rewrite record_put_keys. intros [->|H]; [|now apply Hk].
    now rewrite String.eqb_refl in E.
Qed.

Lemma record_set_keys key line res : ∀ x,
  x ∈ map fst (record_set key line res)
  ↔ (x = key ∧ key ≠ "__proto__") ∨ x ∈ map fst res.
Proof.
  intros x. unfold record_set.
  destruct (String.eqb key "__proto__") eqn:E.
  - apply String.eqb_eq in E. tauto.
  - apply String.eqb_neq in E. rewrite record_put_keys. tauto.
Qed.

Lemma record_set_nodup key line res :
  NoDup (map fst res) → NoDup (map fst (record_set key line res)).
Proof.
  unfold record_set. destruct (String.eqb key "__proto__"); [auto|].
  apply record_put_nodup.
Qed.

Lemma batch_keys fs res evs out res' :
  batch fs res evs out (Ok res') →
  NoDup (map fst res) →
  NoDup (map fst res')
  ∧ ∀ x, x ∈ map fst res'
         ↔ x ∈ map fst res ∨ (x ∈ map field_key fs ∧ x ≠ "__proto__").
Proof.
  intros B. remember (Ok res') as r eqn:R. revert res' R.
  induction B as [res|f fs res evs sh line evs' out r A B IH
                  |f fs res evs sh v e A]; intros res' R N;
    [|subst r|discriminate].
  - injection R as <-. split; [exact N|]. intros x. simpl.
    split; [auto|]. intros [H|[H _]]; [exact H|inversion H].
  - destruct (IH res' eq_refl (record_set_nodup _ _ _ N)) as [N' K].
    split; [exact N'|]. intros x. rewrite K, record_set_keys. simpl.
    rewrite elem_of_cons. split.
    + intros [[[-> H]|H]|[H1 H2]]; auto.
    + intros [H|[[->|H1] H2]]; auto.
Qed.

(** X14. When a batch ends well, [get] hands over a record that holds
    exactly one entry for each distinct name among the fields, the name
    [__proto__] apart: fields that share a name share an entry.  The name
    of a string is the string, the name of a descriptor is its [name], and
    a descriptor without one goes under "[object Object]". *)
Theorem get_record_keys msg evs out res s :
  idle s →
  batch (map (known (properties s)) (vars_of msg)) [] evs out (Ok res) →
  calls (trace (feed evs (get msg KUserRec s)))
  = (calls (trace s) ++ [[ANull; ARecord res]])%list
  ∧ NoDup (map fst res)
  ∧ (∀ key, key ∈ map fst res
            ↔ key ∈ map field_key
                    (map (known (properties s)) (vars_of msg))
              ∧ key ≠ "__proto__")
  ∧ (∀ str, field_key (FStr str) = str)
  ∧ (∀ p, field_key (FDesc p)
          = match Field.name p with
            | Some n => if is_empty n then "[object Object]" else n
            | None => "[object Object]"
            end).
Proof.
  intros I B.
  destruct (get_batch _ _ _ _ KUserRec s I B) as (s' & F & _ & T).
  destruct (batch_keys _ _ _ _ _ B) as [N K]; [constructor|].
  split; [|split; [exact N|split; [|split]]].
  - rewrite F. simpl. rewrite calls_app. simpl.
    rewrite <- calls_visible, T, calls_app, calls_visible.
    now rewrite (calls_batch _ _ _ _ _ B), app_nil_r.
  - intros key. rewrite K. simpl. split; [|auto].
    intros [H|H]; [inversion H|exact H].
  - reflexivity.
  - intros p. simpl. destruct (Field.name p) as [[|c n]|]; reflexivity.
Qed.

Lemma get_record_keys_witness :
  calls (trace (feed [Data ("a" ++ nl); Data ("b" ++ nl)]
                  (get (Several [FStr "Host"; FStr "hostname"]) KUserRec
                     (session registry))))
  = [[ANull; ARecord [("hostname", "b")]]].
Proof.
  refine (proj1 (get_record_keys (Several [FStr "Host"; FStr "hostname"])
                   [Data ("a" ++ nl); Data ("b" ++ nl)]
                   (shown (FDesc host_descriptor) ++ accepted "a"
                    ++ shown (FStr "hostname") ++ accepted "b")%list
                   [("hostname", "b")] (session registry) _ _)).
  - by_computation.
  - apply (batch_next (FDesc host_descriptor) [FStr "hostname"] []
             [Data ("a" ++ nl)]
             (shown (FDesc host_descriptor) ++ accepted "a")%list "a"
             [Data ("b" ++ nl)]
             (shown (FStr "hostname") ++ accepted "b")%list).
    + apply (answers_accept (FDesc host_descriptor) _ "a"); reflexivity.
    + apply (batch_next (FStr "hostname") [] _ [Data ("b" ++ nl)]
               (shown (FStr "hostname") ++ accepted "b")%list "b" [] []).
      * apply (answers_accept (FStr "hostname") _ "b"); reflexivity.
      * apply batch_done.
Defined.

Lemma lower_char_idem c : lower_char (lower_char c) = lower_char c.
Proof. destruct c as [[] [] [] [] [] [] [] []]; reflexivity. Qed.

Lemma toLowerCase_idem s : toLowerCase (toLowerCase s) = toLowerCase s.
Proof.
  induction s as [|c s IH]; [reflexivity|]. simpl.
  now rewrite lower_char_idem, IH.
Qed.

(** X15. [get] does not tell the case of a name: asked for names, it
    does what it does for the same names in lower case, whatever the
    registry holds. *)
Theorem get_ignores_case names k s :
  get (Several (map FStr names)) k s
  = get (Several (map FStr (map toLowerCase names))) k s
  ∧ ∀ name, get (Single (FStr name)) k s
            = get (Single (FStr (toLowerCase name))) k s.
Proof.
  assert (K : ∀ name, known (properties s) (FStr name)
                      = known (properties s) (FStr (toLowerCase name))).
  { intros name. simpl. now rewrite toLowerCase_idem. }
  split.
  - unfold get. cbn [vars_of]. f_equal. rewrite !map_map. apply map_ext. exact K.
  - intros name. unfold get. cbn [vars_of map]. now rewrite K.
Qed.
